(** * LeaseManager: inventory, flow control and deadline extension

    A shallow embedding of the [LeaseManager] class (lease-manager.ts of the
    Pub/Sub client).  JavaScript objects used as records of options are finite
    maps from property names to values; the [Set<Message>] inventory is an
    insertion-ordered list without repetitions; the [Message[]] pending queue
    is a list.  Every effect of the class on its environment is explicit:
    [process.nextTick] appends a callback to a queue, a listener invocation
    appends an event to a trace, and [Math.random] reads an oracle.  The
    tracing calls on [message.subSpans] do not touch the manager and are left
    out.  Times, deadlines and the jitter are exact rationals. *)

From Stdlib Require Import ZArith QArith Lqa.
From stdpp Require Import base decidable option list gmap strings.

Local Open Scope Z_scope.

(** ** JavaScript values and option objects *)

(** The values an option of [FlowControlOptions] can hold: [undefined], a
    boolean or a number.  Numbers are restricted to integers here. *)
Inductive JSValue :=
  | JSUndefined
  | JSBool (b : bool)
  | JSNumber (n : Z).

#[global] Instance JSValue_eq_dec : EqDecision JSValue.
Proof. solve_decision. Defined.

Abbreviation JSObject := (gmap string JSValue).

(** Property read [o.k]: an absent property reads as [undefined]. *)
Definition prop (o : JSObject) (k : string) : JSValue :=
  default JSUndefined (o !! k).

(** [Object.assign(target, source)]: every own property of [source]
    (also one whose value is [undefined]) overwrites the one of [target]. *)
Definition Object_assign (target source : JSObject) : JSObject :=
  source ∪ target.

(** Truthiness, as used by [allowExcessMessages! || ...]. *)
Definition ToBoolean (v : JSValue) : bool :=
  match v with
  | JSUndefined => false
  | JSBool b => b
  | JSNumber n => negb (n =? 0)
  end.

(** [ToNumber]; [None] stands for NaN. *)
Definition ToNumber (v : JSValue) : option Z :=
  match v with
  | JSUndefined => None
  | JSBool b => Some (Z.b2z b)
  | JSNumber n => Some n
  end.

(** [x >= v] for a number [x]: false as soon as one side is NaN. *)
Definition js_ge (x : Z) (v : JSValue) : bool :=
  match ToNumber v with
  | Some n => n <=? x
  | None => false
  end.

(** ** Messages and the subscriber *)

(** The fields of [Message] the manager reads.  [ref] stands for the identity
    of the object: [Set] and [Array.prototype.includes] compare references, so
    two distinct objects carry distinct [ref]s. *)
Module Message.
Record t := mk {
  ref : nat;
  length : nat;
  received : Z;
}.

#[global] Instance eq_dec : EqDecision t.
Proof. solve_decision. Defined.
End Message.

(** The fields of [Subscriber] the manager reads.  [ackDeadline] is in
    seconds, [modAckLatency] in milliseconds, and [maxExtensionMinutes] is the
    value of [maxExtensionTime.totalOf('minute')]. *)
Record Subscriber := mkSubscriber {
  isOpen : bool;
  ackDeadline : Q;
  modAckLatency : Q;
  maxExtensionMinutes : Q;
  isExactlyOnceDelivery : bool;
}.

(** ** The manager and its environment *)

Record LeaseManager := mkLeaseManager {
  bytes : Z;
  _isLeasing : bool;
  _messages : list Message.t;
  _options : JSObject;
  _pending : list Message.t;
  _subscriber : Subscriber;
  _timer : option Q;
}.

(** The closures handed to [process.nextTick]. *)
Inductive Callback :=
  | EmitFree
  | EmitMessage (m : Message.t).

(** What the collaborators observe, in the order they observe it: the
    ['full'] and ['free'] listeners of the manager, the ['message'] listener of
    the subscriber, and the renewal calls made on a message. *)
Inductive Event :=
  | Full
  | Free
  | Delivered (m : Message.t)
  | ModAck (m : Message.t) (seconds : Q)
  | ModAckWithResponse (m : Message.t) (seconds : Q).

Record World := mkWorld {
  this : LeaseManager;
  nextTickQueue : list Callback;
  trace : list Event;
  random : nat → Q;
  draws : nat;
}.

Definition with_this (f : LeaseManager → LeaseManager) (w : World) : World :=
  mkWorld (f (this w)) (nextTickQueue w) (trace w) (random w) (draws w).

Definition set_bytes (b : Z) : World → World :=
  with_this (λ lm, mkLeaseManager b (_isLeasing lm) (_messages lm)
    (_options lm) (_pending lm) (_subscriber lm) (_timer lm)).

Definition set_isLeasing (b : bool) : World → World :=
  with_this (λ lm, mkLeaseManager (bytes lm) b (_messages lm)
    (_options lm) (_pending lm) (_subscriber lm) (_timer lm)).

Definition set_messages (s : list Message.t) : World → World :=
  with_this (λ lm, mkLeaseManager (bytes lm) (_isLeasing lm) s
    (_options lm) (_pending lm) (_subscriber lm) (_timer lm)).

Definition set_options (o : JSObject) : World → World :=
  with_this (λ lm, mkLeaseManager (bytes lm) (_isLeasing lm) (_messages lm)
    o (_pending lm) (_subscriber lm) (_timer lm)).

Definition set_pending (p : list Message.t) : World → World :=
  with_this (λ lm, mkLeaseManager (bytes lm) (_isLeasing lm) (_messages lm)
    (_options lm) p (_subscriber lm) (_timer lm)).

Definition set_subscriber (sub : Subscriber) : World → World :=
  with_this (λ lm, mkLeaseManager (bytes lm) (_isLeasing lm) (_messages lm)
    (_options lm) (_pending lm) sub (_timer lm)).

Definition set_timer (t : option Q) : World → World :=
  with_this (λ lm, mkLeaseManager (bytes lm) (_isLeasing lm) (_messages lm)
    (_options lm) (_pending lm) (_subscriber lm) t).

(** [this.emit(e)]: the listeners run inside the call. *)
Definition emit (e : Event) (w : World) : World :=
  mkWorld (this w) (nextTickQueue w) (trace w ++ [e]) (random w) (draws w).

(** [process.nextTick(c)]: the callback runs after the current call. *)
Definition nextTick (c : Callback) (w : World) : World :=
  mkWorld (this w) (nextTickQueue w ++ [c]) (trace w) (random w) (draws w).

(** [Math.random()]. *)
Definition Math_random (w : World) : Q * World :=
  (random w (draws w),
   mkWorld (this w) (nextTickQueue w) (trace w) (random w) (S (draws w))).

(** ** [Set<Message>] and [Message[]] primitives *)

Definition Set_has (m : Message.t) (s : list Message.t) : bool :=
  bool_decide (m ∈ s).

Definition Set_add (m : Message.t) (s : list Message.t) : list Message.t :=
  if Set_has m s then s else s ++ [m].

Fixpoint Set_delete (m : Message.t) (s : list Message.t) : list Message.t :=
  match s with
  | [] => []
  | x :: s' => if decide (x = m) then Set_delete m s' else x :: Set_delete m s'
  end.

Definition includes (m : Message.t) (a : list Message.t) : bool :=
  bool_decide (m ∈ a).

(** [a.indexOf(m)]; only called when [a.includes(m)]. *)
Fixpoint indexOf (m : Message.t) (a : list Message.t) : nat :=
  match a with
  | [] => 0
  | x :: a' => if decide (x = m) then 0 else S (indexOf m a')
  end.

(** [a.splice(index, 1)]. *)
Definition splice1 (index : nat) (a : list Message.t) : list Message.t :=
  take index a ++ drop (S index) a.

(** ** The methods of the class *)

(** Modelled from the spec: [defaultOptions.subscription.maxOutstandingBytes]
    of ./default-options, which is not among the sources; the documented
    default of [maxBytes] is 100 MiB. *)
Definition maxOutstandingBytes : Z := 104857600.

(** Modelled from the spec: [defaultOptions.subscription.maxOutstandingMessages]
    of ./default-options, which is not among the sources; the documented
    default of [maxMessages] is 1000. *)
Definition maxOutstandingMessages : Z := 1000.

Definition defaults : JSObject :=
  {[ "allowExcessMessages" := JSBool true;
     "maxBytes" := JSNumber maxOutstandingBytes;
     "maxMessages" := JSNumber maxOutstandingMessages ]}.

(** How a call ends: it returns, or it throws. *)
Inductive Completion (A : Type) :=
  | Normal (a : A)
  | Throw (e : string).
Arguments Normal {A} a.
Arguments Throw {A} e.

Definition setOptions (options : JSObject) (w : World) : Completion World :=
  Normal (set_options (Object_assign defaults options) w).

Definition size (lm : LeaseManager) : Z := Z.of_nat (length (_messages lm)).

Definition pending (lm : LeaseManager) : Z := Z.of_nat (length (_pending lm)).

Definition isFull (lm : LeaseManager) : bool :=
  js_ge (size lm) (prop (_options lm) "maxMessages")
  || js_ge (bytes lm) (prop (_options lm) "maxBytes").

Definition _cancelExtension (w : World) : World :=
  let w := set_isLeasing false w in
  match _timer (this w) with
  | Some _ => set_timer None w
  | None => w
  end.

Definition _dispense (message : Message.t) (w : World) : World :=
  if isOpen (_subscriber (this w))
  then nextTick (EmitMessage message) w
  else w.

Definition _getNextExtensionTimeoutMs (w : World) : Q * World :=
  let (jitter, w) := Math_random w in
  let deadline := (ackDeadline (_subscriber (this w)) * 1000)%Q in
  let latency := modAckLatency (_subscriber (this w)) in
  (((deadline * (9 # 10) - latency) * jitter)%Q, w).

Definition _scheduleExtension (w : World) : World :=
  let (timeout, w) := _getNextExtensionTimeoutMs w in
  set_timer (Some timeout) w.

Definition add (message : Message.t) (w : World) : World :=
  let allowExcessMessages := prop (_options (this w)) "allowExcessMessages" in
  let wasFull := isFull (this w) in
  let w := set_messages (Set_add message (_messages (this w))) w in
  let w := set_bytes (bytes (this w) + Z.of_nat (Message.length message)) w in
  let w :=
    if ToBoolean allowExcessMessages || negb wasFull
    then _dispense message w
    else set_pending (_pending (this w) ++ [message]) w in
  let w :=
    if negb (_isLeasing (this w))
    then _scheduleExtension (set_isLeasing true w)
    else w in
  if negb wasFull && isFull (this w) then emit Full w else w.

Definition clear (w : World) : list Message.t * World :=
  let wasFull := isFull (this w) in
  let w := set_pending [] w in
  let remaining := _messages (this w) in
  let w := set_messages [] w in
  let w := set_bytes 0 w in
  let w := if wasFull then nextTick EmitFree w else w in
  let w := _cancelExtension w in
  (remaining, w).

Definition remove (message : Message.t) (w : World) : World :=
  if negb (Set_has message (_messages (this w))) then w else
  let wasFull := isFull (this w) in
  let w := set_messages (Set_delete message (_messages (this w))) w in
  let w := set_bytes (bytes (this w) - Z.of_nat (Message.length message)) w in
  let w :=
    if wasFull && negb (isFull (this w)) then nextTick EmitFree w
    else if includes message (_pending (this w)) then
      let index := indexOf message (_pending (this w)) in
      set_pending (splice1 index (_pending (this w))) w
    else if 0 <? pending (this w) then
      match _pending (this w) with
      | first :: rest => _dispense first (set_pending rest w)
      | [] => w
      end
    else w in
  if (size (this w) =? 0) && _isLeasing (this w)
  then _cancelExtension w
  else w.

(** [for (const message of this._messages) body]: the iterator of a [Set]
    walks the entries in insertion order and skips an entry deleted before it
    is reached; no entry is inserted while the loops of this class run. *)
Definition Set_forEach (body : Message.t → World → World) (w : World) : World :=
  foldl (λ w message,
           if Set_has message (_messages (this w)) then body message w else w)
        w (_messages (this w)).

(** One iteration of the loop of [_extendDeadlines]; [now] is the reading of
    [Date.now()] in that iteration.  The lifespan is in minutes.  A rejected
    [modAckWithResponse] is a later call of [remove]. *)
Definition extend_one (now : Z) (message : Message.t) (w : World) : World :=
  let deadline := ackDeadline (_subscriber (this w)) in
  let maxExtensionMinutes := maxExtensionMinutes (_subscriber (this w)) in
  let lifespan := (inject_Z (now - Message.received message) / 60000)%Q in
  if negb (Qle_bool maxExtensionMinutes lifespan) then
    if isExactlyOnceDelivery (_subscriber (this w))
    then emit (ModAckWithResponse message deadline) w
    else emit (ModAck message deadline) w
  else remove message w.

(** [now m] is the clock reading in the iteration that visits [m]. *)
Definition _extendDeadlines (now : Message.t → Z) (w : World) : World :=
  let w := Set_forEach (λ message, extend_one (now message) message) w in
  if _isLeasing (this w) then _scheduleExtension w else w.

(** The constructor; [rnd] is the oracle behind [Math.random]. *)
Definition new_LeaseManager (sub : Subscriber) (options : JSObject)
    (rnd : nat → Q) : Completion World :=
  setOptions options
    (mkWorld (mkLeaseManager 0 false [] ∅ [] sub None) [] [] rnd 0%nat).

(** ** Runs *)

(** Running the oldest callback queued with [process.nextTick]. *)
Definition runNextTick (w : World) : World :=
  match nextTickQueue w with
  | [] => w
  | c :: q =>
      let w := mkWorld (this w) q (trace w) (random w) (draws w) in
      match c with
      | EmitFree => emit Free w
      | EmitMessage m => emit (Delivered m) w
      end
  end.

(** What can happen to a manager: a call of one of its methods, the timer
    firing, a queued callback running, or the subscriber changing state. *)
Inductive Op :=
  | Add (m : Message.t)
  | Remove (m : Message.t)
  | Clear
  | SetOptions (options : JSObject)
  | ExtendDeadlines (now : Message.t → Z)
  | NextTick
  | SubscriberChange (sub : Subscriber).

Definition step (w : World) (op : Op) : World :=
  match op with
  | Add m => add m w
  | Remove m => remove m w
  | Clear => snd (clear w)
  | SetOptions o =>
      match setOptions o w with
      | Normal w' => w'
      | Throw _ => w
      end
  | ExtendDeadlines now => _extendDeadlines now w
  | NextTick => runNextTick w
  | SubscriberChange sub => set_subscriber sub w
  end.

Definition run (ops : list Op) (w : World) : World := foldl step w ops.

(** ** Derived notions used in the statements *)

(** The sum of the sizes of the messages of an inventory. *)
Definition totalBytes (s : list Message.t) : Z :=
  foldr (λ m acc, Z.of_nat (Message.length m) + acc) 0 s.

(** Fullness as a function of the options, the count and the byte total. *)
Definition full_at (o : JSObject) (count total : Z) : bool :=
  js_ge count (prop o "maxMessages") || js_ge total (prop o "maxBytes").



(** The age of a message in minutes at clock reading [now]. *)
Definition lifespan (now : Z) (m : Message.t) : Q :=
  (inject_Z (now - Message.received m) / 60000)%Q.

(** The base of the re-arm interval: 90% of the deadline in milliseconds
    minus the latency of the renewal call. *)
Definition extensionBase (sub : Subscriber) : Q :=
  (ackDeadline sub * 1000 * (9 # 10) - modAckLatency sub)%Q.

(** The events delivered to listeners between two worlds. *)
Definition since (w w' : World) : list Event :=
  drop (length (trace w)) (trace w').

(** The messages for which a renewal call was made. *)
Definition renewed (t : list Event) : list Message.t :=
  omap (λ e, match e with
             | ModAck m _ | ModAckWithResponse m _ => Some m
             | _ => None
             end) t.

(** What [_dispense] hands to [process.nextTick]. *)
Definition dispensed (sub : Subscriber) (m : Message.t) : list Callback :=
  if isOpen sub then [EmitMessage m] else [].

(** The body of the loop of [_extendDeadlines] as the iterator of the [Set]
    runs it. *)
Definition visit (now : Message.t → Z) (w : World) (message : Message.t) : World :=
  if Set_has message (_messages (this w))
  then extend_one (now message) message w
  else w.

(** Every [Add] of the run is given a message that is not held at that point. *)
Fixpoint fresh_adds (ops : list Op) (w : World) : bool :=
  match ops with
  | [] => true
  | op :: ops' =>
      match op with
      | Add m => negb (Set_has m (_messages (this w)))
      | _ => true
      end && fresh_adds ops' (step w op)
  end.

(** The inventory has no repetition and the byte counter is its total. *)
Definition accounted (w : World) : Prop :=
  NoDup (_messages (this w))
  ∧ bytes (this w) = totalBytes (_messages (this w)).

(** *** Capacity notifications *)

Inductive Signal := OnFull | OnFree.

#[global] Instance Signal_eq_dec : EqDecision Signal.
Proof. solve_decision. Defined.














(** *** Concrete subscribers, messages and configurations *)

Definition subscriber0 : Subscriber := mkSubscriber true 10 100 60 false.

(** A subscriber whose renewal latency exceeds 90% of its deadline. *)
Definition slow_subscriber : Subscriber := mkSubscriber true 10 10000 60 false.

Definition msgA : Message.t := Message.mk 1 10 0.

Definition msgB : Message.t := Message.mk 2 5 0.

Definition msgC : Message.t := Message.mk 3 5 0.




(** A world built by the constructor, for a given options object. *)
Definition world_of (sub : Subscriber) (options : JSObject) : World :=
  match new_LeaseManager sub options (λ _, 1 # 2)%Q with
  | Normal w => w
  | Throw _ => mkWorld (mkLeaseManager 0 false [] ∅ [] sub None) [] [] (λ _, 0%Q) 0%nat
  end.

(** The options object the documentation of [setOptions] says is rejected
    with a [RangeError]: both [maxExtension] and [maxExtensionMinutes] set. *)
Definition conflicting_options : JSObject :=
  {[ "maxExtension" := JSNumber 3600; "maxExtensionMinutes" := JSNumber 60 ]}.


Definition one_message_cap : JSObject :=
  {[ "allowExcessMessages" := JSBool false; "maxMessages" := JSNumber 1 ]}.

(** The scenario of section 8 of the specification: excess messages are held
    back and the capacity is two messages. *)
Definition two_message_cap : JSObject :=
  {[ "allowExcessMessages" := JSBool false; "maxMessages" := JSNumber 2 ]}.

Definition ten_byte_cap : JSObject :=
  {[ "allowExcessMessages" := JSBool false; "maxBytes" := JSNumber 10 ]}.

(** *** Further notions: the lease, the sweep, the queue *)

(** The byte counter covers the inventory, which has no repetition. *)
Definition covered (w : World) : Prop :=
  NoDup (_messages (this w))
  ∧ totalBytes (_messages (this w)) ≤ bytes (this w).

(** A timer handle is stored. *)
Definition armed (lm : LeaseManager) : bool :=
  match _timer lm with
  | Some _ => true
  | None => false
  end.

(** The manager leases, and holds a timer, exactly when it holds a message. *)
Definition leased (w : World) : Prop :=
  _isLeasing (this w) = negb (bool_decide (_messages (this w) = []))
  ∧ armed (this w) = _isLeasing (this w).

(** The test [lifespan < maxExtensionMinutes] of the sweep. *)
Definition young (now : Message.t → Z) (sub : Subscriber) (m : Message.t) : bool :=
  negb (Qle_bool (maxExtensionMinutes sub) (lifespan (now m) m)).

(** The renewal call the sweep makes for a message. *)
Definition renewal (sub : Subscriber) (m : Message.t) : Event :=
  if isExactlyOnceDelivery sub
  then ModAckWithResponse m (ackDeadline sub)
  else ModAck m (ackDeadline sub).

(** What a listener sees when a queued callback runs. *)
Definition deliver (c : Callback) : Event :=
  match c with
  | EmitFree => Free
  | EmitMessage m => Delivered m
  end.

(** The messages the application has received, in order. *)
Definition deliveries (t : list Event) : list Message.t :=
  omap (λ e, match e with Delivered m => Some m | _ => None end) t.

(** The run never replaces the options. *)
Definition no_reconfiguration (ops : list Op) : bool :=
  forallb (λ op, match op with SetOptions _ => false | _ => true end) ops.

(** The run never opens the subscriber. *)
Definition stays_closed (ops : list Op) : bool :=
  forallb (λ op, match op with
                 | SubscriberChange sub => negb (isOpen sub)
                 | _ => true
                 end) ops.

(** The message an operation brings to the manager, if any. *)
Definition arriving (op : Op) : list Message.t :=
  match op with
  | Add m => [m]
  | _ => []
  end.

(** A callback that hands a message to the application. *)
Definition is_dispense (c : Callback) : bool :=
  match c with
  | EmitMessage _ => true
  | EmitFree => false
  end.

(** An event in which the application receives a message. *)
Definition is_delivery (e : Event) : bool :=
  match e with
  | Delivered _ => true
  | _ => false
  end.

(** Excess messages are allowed and none is held back. *)
Definition excess_allowed (w : World) : Prop :=
  ToBoolean (prop (_options (this w)) "allowExcessMessages") = true
  ∧ _pending (this w) = [].

(** The subscriber is closed, no dispense is queued and no message has been
    delivered. *)
Definition silent (w : World) : Prop :=
  isOpen (_subscriber (this w)) = false
  ∧ Forall (λ c, is_dispense c = false) (nextTickQueue w)
  ∧ Forall (λ e, is_delivery e = false) (trace w).

(** Excess messages are held back and the only cap is a count of [N]
    messages: [maxBytes] is [undefined]. *)
Definition count_capped (N : Z) (o : JSObject) : Prop :=
  ToBoolean (prop o "allowExcessMessages") = false
  ∧ prop o "maxMessages" = JSNumber N
  ∧ prop o "maxBytes" = JSUndefined.

(** Neither list repeats a message, every pending message is held, at most
    [N] held messages are not pending, and exactly [N] while one is pending. *)
Definition metered_lists (N : Z) (held pend : list Message.t) : Prop :=
  NoDup held
  ∧ NoDup pend
  ∧ (∀ x, x ∈ pend → x ∈ held)
  ∧ Z.of_nat (length held) - Z.of_nat (length pend) ≤ N
  ∧ (pend ≠ [] → Z.of_nat (length held) - Z.of_nat (length pend) = N).

Definition metered (N : Z) (w : World) : Prop :=
  metered_lists N (_messages (this w)) (_pending (this w)).

(** Only a count cap of two messages, excess messages held back. *)
Definition count_cap_two : JSObject :=
  {[ "allowExcessMessages" := JSBool false; "maxBytes" := JSUndefined;
     "maxMessages" := JSNumber 2 ]}.

(** A subscriber that is not open. *)
Definition closed_subscriber : Subscriber := mkSubscriber false 10 100 60 false.

(** Both caps overridden with [undefined]. *)
Definition undefined_caps : JSObject :=
  {[ "maxBytes" := JSUndefined; "maxMessages" := JSUndefined ]}.

(** ** Elementary facts about the primitives *)

Lemma Set_has_true m s : Set_has m s = true ↔ m ∈ s.
Proof. unfold Set_has. apply bool_decide_eq_true. Qed.

Lemma Set_has_false m s : Set_has m s = false ↔ m ∉ s.
Proof. unfold Set_has. apply bool_decide_eq_false. Qed.

Lemma elem_of_Set_delete x m s : x ∈ Set_delete m s ↔ x ∈ s ∧ x ≠ m.
Proof.
  induction s as [|y s IH]; simpl.
  - split; [intros H; inversion H | intros [H _]; inversion H].
  - destruct (decide (y = m)) as [->|Hne].
    + rewrite IH, elem_of_cons. tauto.
    + rewrite !elem_of_cons, IH. intuition congruence.
Qed.

Lemma Set_delete_absent m s : m ∉ s → Set_delete m s = s.
Proof.
  induction s as [|y s IH]; simpl; [done|].
  rewrite not_elem_of_cons. intros [Hne Hs].
  destruct (decide (y = m)); [congruence|]. by rewrite IH.
Qed.

Lemma Set_delete_length m s : (length (Set_delete m s) ≤ length s)%nat.
Proof.
  induction s as [|y s IH]; simpl; [lia|].
  destruct (decide (y = m)); simpl; lia.
Qed.

Lemma NoDup_Set_delete m s : NoDup s → NoDup (Set_delete m s).
Proof.
  induction 1 as [|y s Hy Hs IH]; simpl; [constructor|].
  destruct (decide (y = m)); [done|].
  constructor; [|done]. rewrite elem_of_Set_delete. tauto.
Qed.

Lemma NoDup_Set_add m s : NoDup s → NoDup (Set_add m s).
Proof.
  intros Hs. unfold Set_add. destruct (Set_has m s) eqn:Hm; [done|].
  apply Set_has_false in Hm. apply NoDup_app. split_and!; [done| |].
  - intros x Hx Hx'. apply list_elem_of_singleton in Hx'. by subst.
  - apply NoDup_singleton.
Qed.

Lemma totalBytes_nonneg s : 0 ≤ totalBytes s.
Proof. induction s; simpl; lia. Qed.

Lemma totalBytes_app s t : totalBytes (s ++ t) = totalBytes s + totalBytes t.
Proof. induction s; simpl; lia. Qed.

Lemma totalBytes_Set_delete m s :
  NoDup s → m ∈ s →
  totalBytes (Set_delete m s) = totalBytes s - Z.of_nat (Message.length m).
Proof.
  induction 1 as [|y s Hy Hs IH]; simpl; [by intros ?%not_elem_of_nil|].
  destruct (decide (y = m)) as [->|Hne]; intros Hin.
  - rewrite Set_delete_absent by done. lia.
  - apply elem_of_cons in Hin as [->|Hin]; [done|].
    simpl. rewrite IH by done. lia.
Qed.

Lemma js_ge_mono v x y : x ≤ y → js_ge x v = true → js_ge y v = true.
Proof.
  unfold js_ge. destruct (ToNumber v); [|done].
  rewrite !Z.leb_le. lia.
Qed.

Lemma full_at_mono o c c' t t' :
  c ≤ c' → t ≤ t' → full_at o c t = true → full_at o c' t' = true.
Proof.
  unfold full_at. rewrite !orb_true_iff.
  intros ?? [H|H]; [left|right]; eapply js_ge_mono; eauto.
Qed.

Lemma isFull_full_at lm :
  isFull lm = full_at (_options lm) (size lm) (bytes lm).
Proof. reflexivity. Qed.

(** ** What each method does to each component of the world *)

Arguments isFull : simpl never.
Arguments full_at : simpl never.

(** Evaluation of the methods on a world given by its components. *)
Ltac world_eval :=
  lazy [add remove clear _dispense _cancelExtension _scheduleExtension
        _getNextExtensionTimeoutMs Math_random emit nextTick set_bytes
        set_isLeasing set_messages set_options set_pending set_subscriber
        set_timer with_this this bytes _isLeasing _messages _options _pending
        _subscriber _timer nextTickQueue trace random draws fst snd
        isFull full_at size pending dispensed] in *.

(** Case analysis on the next test of the method, in program order: a test
    is chosen only when no earlier test is left inside it. *)
Ltac next_case :=
  match goal with
  | |- context [if ?b then _ else _] =>
      lazymatch b with
      | context [if _ then _ else _] => fail
      | context [match _ with _ => _ end] => fail
      | _ => destruct b eqn:?
      end
  | |- context [match ?o with Some _ => _ | None => _ end] =>
      lazymatch o with
      | context [if _ then _ else _] => fail
      | _ => destruct o eqn:?
      end
  | |- context [match ?l with [] => _ | _ :: _ => _ end] =>
      lazymatch l with
      | context [if _ then _ else _] => fail
      | _ => destruct l eqn:?
      end
  end.

Ltac world_cases w :=
  destruct w as [[? ? ? ? ? ? ?] ? ? ? ?];
  world_eval; repeat (next_case; world_eval).

Ltac absurd_pending :=
  match goal with
  | H : (0 <? Z.of_nat (length (_ :: _))) = false |- _ =>
      apply Z.ltb_ge in H; simpl length in H; lia
  end.

Ltac flip_negb :=
  repeat match goal with
         | H : negb _ = true |- _ => apply negb_true_iff in H
         | H : negb _ = false |- _ => apply negb_false_iff in H
         end.

Ltac empty_pending :=
  match goal with
  | H : (0 <? Z.of_nat (length ?l)) = false |- _ =>
      destruct l; [reflexivity | absurd_pending]
  end.

Ltac close_case :=
  rewrite ?app_nil_r;
  first [reflexivity | congruence | absurd_pending | empty_pending
        | flip_negb; congruence].

Lemma add_messages m w :
  _messages (this (add m w)) = Set_add m (_messages (this w)).
Proof. world_cases w; close_case. Qed.

Lemma add_bytes m w :
  bytes (this (add m w)) = bytes (this w) + Z.of_nat (Message.length m).
Proof. world_cases w; close_case. Qed.

Lemma add_options m w : _options (this (add m w)) = _options (this w).
Proof. world_cases w; close_case. Qed.

Lemma add_subscriber m w : _subscriber (this (add m w)) = _subscriber (this w).
Proof. world_cases w; close_case. Qed.

Lemma add_isFull m w :
  isFull (this (add m w))
  = full_at (_options (this w))
      (Z.of_nat (length (Set_add m (_messages (this w)))))
      (bytes (this w) + Z.of_nat (Message.length m)).
Proof.
  rewrite isFull_full_at. unfold size.
  by rewrite add_options, add_messages, add_bytes.
Qed.

Lemma add_pending m w :
  _pending (this (add m w))
  = if ToBoolean (prop (_options (this w)) "allowExcessMessages")
       || negb (isFull (this w))
    then _pending (this w)
    else _pending (this w) ++ [m].
Proof. world_cases w; close_case. Qed.

Lemma add_nextTickQueue m w :
  nextTickQueue (add m w)
  = nextTickQueue w ++
    if ToBoolean (prop (_options (this w)) "allowExcessMessages")
       || negb (isFull (this w))
    then dispensed (_subscriber (this w)) m
    else [].
Proof. world_cases w; close_case. Qed.

Lemma add_trace m w :
  trace (add m w)
  = trace w ++
    if negb (isFull (this w)) && isFull (this (add m w)) then [Full] else [].
Proof. rewrite add_isFull. world_cases w; close_case. Qed.

Lemma remove_absent m w : Set_has m (_messages (this w)) = false → remove m w = w.
Proof. intros H. unfold remove. by rewrite H. Qed.

Lemma remove_messages m w :
  _messages (this (remove m w)) = Set_delete m (_messages (this w)).
Proof.
  destruct (Set_has m (_messages (this w))) eqn:Hm.
  - world_cases w; close_case.
  - rewrite remove_absent by done.
    apply Set_has_false in Hm. by rewrite Set_delete_absent.
Qed.

Lemma remove_bytes m w :
  bytes (this (remove m w))
  = if Set_has m (_messages (this w))
    then bytes (this w) - Z.of_nat (Message.length m)
    else bytes (this w).
Proof. world_cases w; close_case. Qed.

Lemma remove_options m w : _options (this (remove m w)) = _options (this w).
Proof. world_cases w; close_case. Qed.

Lemma remove_subscriber m w :
  _subscriber (this (remove m w)) = _subscriber (this w).
Proof. world_cases w; close_case. Qed.

Lemma remove_trace m w : trace (remove m w) = trace w.
Proof. world_cases w; close_case. Qed.

Lemma remove_isFull m w :
  isFull (this (remove m w))
  = if Set_has m (_messages (this w))
    then full_at (_options (this w))
           (Z.of_nat (length (Set_delete m (_messages (this w)))))
           (bytes (this w) - Z.of_nat (Message.length m))
    else isFull (this w).
Proof.
  rewrite isFull_full_at. unfold size.
  rewrite remove_options, remove_messages, remove_bytes.
  destruct (Set_has m (_messages (this w))) eqn:Hm; [done|].
  apply Set_has_false in Hm. by rewrite Set_delete_absent.
Qed.

(** The three exclusive branches of [remove] on a held message. *)
Lemma remove_nextTickQueue m w :
  Set_has m (_messages (this w)) = true →
  nextTickQueue (remove m w)
  = nextTickQueue w ++
    if isFull (this w) && negb (isFull (this (remove m w))) then [EmitFree]
    else if includes m (_pending (this w)) then []
    else match _pending (this w) with
         | first :: _ => dispensed (_subscriber (this w)) first
         | [] => []
         end.
Proof.
  intros Hm. rewrite remove_isFull, Hm. revert Hm.
  world_cases w; intros; close_case.
Qed.

Lemma remove_pending m w :
  Set_has m (_messages (this w)) = true →
  _pending (this (remove m w))
  = if isFull (this w) && negb (isFull (this (remove m w)))
    then _pending (this w)
    else if includes m (_pending (this w))
    then splice1 (indexOf m (_pending (this w))) (_pending (this w))
    else tail (_pending (this w)).
Proof.
  intros Hm. rewrite remove_isFull, Hm. revert Hm.
  world_cases w; intros; close_case.
Qed.

Lemma clear_this w :
  _messages (this (snd (clear w))) = []
  ∧ bytes (this (snd (clear w))) = 0
  ∧ _pending (this (snd (clear w))) = []
  ∧ _options (this (snd (clear w))) = _options (this w)
  ∧ _subscriber (this (snd (clear w))) = _subscriber (this w).
Proof. world_cases w; done. Qed.

Lemma clear_returns w : fst (clear w) = _messages (this w).
Proof. reflexivity. Qed.

Lemma clear_trace w : trace (snd (clear w)) = trace w.
Proof. world_cases w; close_case. Qed.

Lemma clear_nextTickQueue w :
  nextTickQueue (snd (clear w))
  = nextTickQueue w ++ if isFull (this w) then [EmitFree] else [].
Proof. world_cases w; close_case. Qed.

Lemma runNextTick_this w : this (runNextTick w) = this w.
Proof. unfold runNextTick. destruct (nextTickQueue w) as [|[] ?]; done. Qed.

Lemma _scheduleExtension_frame w :
  _messages (this (_scheduleExtension w)) = _messages (this w)
  ∧ bytes (this (_scheduleExtension w)) = bytes (this w)
  ∧ _options (this (_scheduleExtension w)) = _options (this w)
  ∧ _subscriber (this (_scheduleExtension w)) = _subscriber (this w)
  ∧ _pending (this (_scheduleExtension w)) = _pending (this w)
  ∧ nextTickQueue (_scheduleExtension w) = nextTickQueue w
  ∧ trace (_scheduleExtension w) = trace w.
Proof. destruct w as [[] ? ? ? ?]. done. Qed.

(** ** The sweep *)

Lemma foldl_preserves {A B} (P : A → Prop) (f : A → B → A) l a :
  (∀ a b, P a → P (f a b)) → P a → P (foldl f a l).
Proof. intros Hf. revert a. induction l; simpl; auto. Qed.

Lemma Set_forEach_preserves (P : World → Prop) body w :
  (∀ m w, P w → P (body m w)) → P w → P (Set_forEach body w).
Proof.
  intros Hb. unfold Set_forEach. apply foldl_preserves.
  intros w' m Hw'. destruct (Set_has m (_messages (this w'))); auto.
Qed.

Lemma _extendDeadlines_preserves (P : World → Prop) now w :
  (∀ m w, P w → P (remove m w)) →
  (∀ m s w, P w → P (emit (ModAck m s) w)) →
  (∀ m s w, P w → P (emit (ModAckWithResponse m s) w)) →
  (∀ w, P w → P (_scheduleExtension w)) →
  P w → P (_extendDeadlines now w).
Proof.
  intros Hr He He' Hs Hw. unfold _extendDeadlines.
  assert (P (Set_forEach (λ m, extend_one (now m) m) w)) as H.
  { apply Set_forEach_preserves; [|done].
    intros m w' Hw'. unfold extend_one.
    destruct (negb _); [destruct (isExactlyOnceDelivery _)|]; auto. }
  destruct (_isLeasing _); auto.
Qed.

Lemma extend_one_subscriber now m w :
  _subscriber (this (extend_one now m w)) = _subscriber (this w).
Proof.
  unfold extend_one.
  destruct (negb _); [destruct (isExactlyOnceDelivery _)|]; try reflexivity.
  apply remove_subscriber.
Qed.

Lemma extend_one_shrinks now m w x :
  x ∈ _messages (this (extend_one now m w)) → x ∈ _messages (this w).
Proof.
  unfold extend_one.
  destruct (negb _); [destruct (isExactlyOnceDelivery _)|]; try done.
  rewrite remove_messages, elem_of_Set_delete. tauto.
Qed.

Lemma extend_one_evicts now m w :
  (maxExtensionMinutes (_subscriber (this w)) <= lifespan now m)%Q →
  m ∉ _messages (this (extend_one now m w)).
Proof.
  intros Hold. apply Qle_bool_iff in Hold. unfold extend_one.
  unfold lifespan in Hold. rewrite Hold. simpl negb. cbv iota.
  rewrite remove_messages, elem_of_Set_delete. tauto.
Qed.

Lemma extend_one_trace now m w :
  ∃ new, trace (extend_one now m w) = trace w ++ new
         ∧ ∀ x, x ∈ renewed new →
                x = m ∧ (lifespan now m < maxExtensionMinutes (_subscriber (this w)))%Q.
Proof.
  unfold extend_one.
  destruct (Qle_bool _ _) eqn:Hle; simpl negb; cbv iota.
  - exists []. rewrite remove_trace, app_nil_r. split; [done|].
    intros x Hx. inversion Hx.
  - assert (lifespan now m < maxExtensionMinutes (_subscriber (this w)))%Q.
    { apply Qnot_le_lt. intros H%Qle_bool_iff. unfold lifespan in H. congruence. }
    destruct (isExactlyOnceDelivery _); eexists [_]; (split; [reflexivity|]);
      intros x Hx; apply list_elem_of_singleton in Hx; by subst.
Qed.

Lemma visit_subscriber now w m : _subscriber (this (visit now w m)) = _subscriber (this w).
Proof. unfold visit. destruct (Set_has _ _); [apply extend_one_subscriber | done]. Qed.

Lemma visit_shrinks now w m x :
  x ∈ _messages (this (visit now w m)) → x ∈ _messages (this w).
Proof. unfold visit. destruct (Set_has _ _); [apply extend_one_shrinks | done]. Qed.

Lemma loop_subscriber now l w :
  _subscriber (this (foldl (visit now) w l)) = _subscriber (this w).
Proof.
  revert w. induction l as [|y l IH]; intros w; simpl; [done|].
  by rewrite IH, visit_subscriber.
Qed.

Lemma loop_shrinks now l w x :
  x ∈ _messages (this (foldl (visit now) w l)) → x ∈ _messages (this w).
Proof.
  revert w. induction l as [|y l IH]; intros w; simpl; [done|].
  intros H%IH. by apply visit_shrinks in H.
Qed.

Lemma loop_evicts now l w m :
  m ∈ l →
  (maxExtensionMinutes (_subscriber (this w)) <= lifespan (now m) m)%Q →
  m ∉ _messages (this (foldl (visit now) w l)).
Proof.
  revert w. induction l as [|y l IH]; intros w Hin Hold; simpl.
  - inversion Hin.
  - destruct (decide (m = y)) as [->|Hne].
    + intros H%loop_shrinks. revert H. unfold visit.
      destruct (Set_has y (_messages (this w))) eqn:Hy.
      * by apply extend_one_evicts.
      * by apply Set_has_false.
    + apply elem_of_cons in Hin as [?|Hin]; [done|].
      apply IH; [done|]. by rewrite visit_subscriber.
Qed.

Lemma loop_trace now l w :
  ∃ new, trace (foldl (visit now) w l) = trace w ++ new
         ∧ ∀ x, x ∈ renewed new →
                x ∈ l
                ∧ (lifespan (now x) x
                   < maxExtensionMinutes (_subscriber (this w)))%Q.
Proof.
  revert w. induction l as [|y l IH]; intros w; simpl.
  - exists []. rewrite app_nil_r. split; [done|]. intros x Hx. inversion Hx.
  - destruct (IH (visit now w y)) as (new2 & Htr2 & Hnew2).
    assert (∃ new1, trace (visit now w y) = trace w ++ new1
              ∧ ∀ x, x ∈ renewed new1 →
                     x = y ∧ (lifespan (now y) y
                              < maxExtensionMinutes (_subscriber (this w)))%Q)
      as (new1 & Htr1 & Hnew1).
    { unfold visit. destruct (Set_has y (_messages (this w))).
      - apply extend_one_trace.
      - exists []. rewrite app_nil_r. split; [done|]. intros x Hx. inversion Hx. }
    exists (new1 ++ new2). split.
    + by rewrite Htr2, Htr1, app_assoc.
    + intros x. unfold renewed. rewrite omap_app, elem_of_app.
      intros [Hx|Hx].
      * apply Hnew1 in Hx as [-> ?]. split; [left|done].
      * apply Hnew2 in Hx as [? Hlt]. rewrite visit_subscriber in Hlt.
        split; [by right|done].
Qed.

Lemma since_app w w' new : trace w' = trace w ++ new → since w w' = new.
Proof. intros H. unfold since. by rewrite H, drop_app_length. Qed.

Lemma _extendDeadlines_loop now w :
  _messages (this (_extendDeadlines now w))
  = _messages (this (Set_forEach (λ m, extend_one (now m) m) w))
  ∧ trace (_extendDeadlines now w)
    = trace (Set_forEach (λ m, extend_one (now m) m) w).
Proof.
  unfold _extendDeadlines. destruct (_isLeasing _); [|done].
  destruct (_scheduleExtension_frame
              (Set_forEach (λ m, extend_one (now m) m) w)) as (-> & _ & _ & _ & _ & _ & ->).
  done.
Qed.

(** C6.  In a sweep, every held message whose age in minutes, (now -
    received) / 60000, has reached [maxExtensionMinutes] is removed from the
    inventory and no renewal call is made for it; a renewal call is made only
    for held messages strictly younger than the cap. *)
Theorem extendDeadlines_evicts_expired now w :
  let w' := _extendDeadlines now w in
  let cap := maxExtensionMinutes (_subscriber (this w)) in
  (∀ m, m ∈ _messages (this w) → (cap <= lifespan (now m) m)%Q →
        (m ∉ _messages (this w')) ∧ (m ∉ renewed (since w w')))
  ∧ (∀ m, m ∈ renewed (since w w') →
          m ∈ _messages (this w) ∧ (lifespan (now m) m < cap)%Q).
Proof.
  intros w' cap.
  destruct (_extendDeadlines_loop now w) as [Hm Ht].
  destruct (loop_trace now (_messages (this w)) w) as (new & Hnew & Hren).
  assert (since w w' = new) as Hsince.
  { apply since_app. subst w'. rewrite Ht. exact Hnew. }
  split.
  - intros m Hin Hold. split.
    + subst w'. rewrite Hm. by apply loop_evicts.
    + rewrite Hsince. intros [_ Hlt]%Hren.
      apply Qlt_not_le in Hlt. by apply Hlt.
  - intros m. rewrite Hsince. apply Hren.
Qed.

(** ** The byte counter and the count *)

Lemma accounted_add m w :
  Set_has m (_messages (this w)) = false → accounted w → accounted (add m w).
Proof.
  intros Hm [Hnd Hb]. unfold accounted.
  rewrite add_messages, add_bytes. split; [by apply NoDup_Set_add|].
  unfold Set_add. rewrite Hm, totalBytes_app, Hb. simpl. lia.
Qed.

Lemma accounted_remove m w : accounted w → accounted (remove m w).
Proof.
  intros [Hnd Hb]. unfold accounted.
  rewrite remove_messages, remove_bytes. split; [by apply NoDup_Set_delete|].
  destruct (Set_has m (_messages (this w))) eqn:Hm.
  - apply Set_has_true in Hm. rewrite totalBytes_Set_delete by done. lia.
  - apply Set_has_false in Hm. by rewrite Set_delete_absent.
Qed.

Lemma accounted_clear w : accounted (snd (clear w)).
Proof.
  unfold accounted. destruct (clear_this w) as (-> & -> & _).
  split; [constructor | done].
Qed.

Lemma accounted_step op w :
  match op with
  | Add m => Set_has m (_messages (this w)) = false
  | _ => True
  end →
  accounted w → accounted (step w op).
Proof.
  destruct op; simpl; intros Hop Hw.
  - by apply accounted_add.
  - by apply accounted_remove.
  - apply accounted_clear.
  - exact Hw.
  - apply _extendDeadlines_preserves; [| | | |done].
    + intros; by apply accounted_remove.
    + intros; done.
    + intros; done.
    + intros; done.
  - unfold accounted. by rewrite runNextTick_this.
  - exact Hw.
Qed.

Lemma accounted_run ops w :
  fresh_adds ops w = true → accounted w → accounted (run ops w).
Proof.
  revert w. induction ops as [|op ops IH]; intros w Hf Hw; simpl in *; [done|].
  apply andb_true_iff in Hf as [Hop Hf].
  apply IH; [done|]. apply accounted_step; [|done].
  destruct op; try done. by apply negb_true_iff.
Qed.

(** C1.  Along every run from a freshly constructed manager in which each
    [add] is given a message not already held, the byte counter equals the
    sum of the sizes of the held messages and is not negative, and [size] is
    the number of held messages (the inventory has no repetition).  The run
    is arbitrary, so this holds after every add, remove and clear. *)
Theorem bytes_and_size_track_inventory sub options rnd w0 ops :
  new_LeaseManager sub options rnd = Normal w0 →
  fresh_adds ops w0 = true →
  let lm := this (run ops w0) in
  bytes lm = totalBytes (_messages lm)
  ∧ 0 ≤ bytes lm
  ∧ NoDup (_messages lm)
  ∧ size lm = Z.of_nat (length (_messages lm)).
Proof.
  intros Hnew Hfresh lm.
  assert (accounted w0) as H0.
  { unfold new_LeaseManager, setOptions in Hnew. injection Hnew as <-.
    split; [constructor | done]. }
  destruct (accounted_run ops w0 Hfresh H0) as [Hnd Hb].
  subst lm. split_and!; try done.
  rewrite Hb. apply totalBytes_nonneg.
Qed.

(** ** The re-arm interval *)

Lemma _getNextExtensionTimeoutMs_value w :
  fst (_getNextExtensionTimeoutMs w)
  = (extensionBase (_subscriber (this w)) * random w (draws w))%Q.
Proof. reflexivity. Qed.

(** C7, as amended.  The re-arm interval is (ackDeadlineMs * 0.9 - latency)
    * jitter; for a jitter in [0,1) it lies in [0, ackDeadlineMs * 0.9 -
    latency] when that bound is not negative, and between the bound and 0
    when the latency exceeds 90% of the deadline. *)
Theorem extension_timeout_range w :
  let jitter := random w (draws w) in
  let base := extensionBase (_subscriber (this w)) in
  let timeout := fst (_getNextExtensionTimeoutMs w) in
  (0 <= jitter)%Q → (jitter < 1)%Q →
  timeout = (base * jitter)%Q
  ∧ ((0 <= base)%Q → (0 <= timeout)%Q ∧ (timeout <= base)%Q)
  ∧ ((base <= 0)%Q → (base <= timeout)%Q ∧ (timeout <= 0)%Q).
Proof.
  intros jitter base timeout H0 H1.
  assert (timeout = (base * jitter)%Q) as -> by reflexivity.
  split; [reflexivity|]. split; intros Hb; split; nra.
Qed.

Lemma extension_timeout_range_witness :
  let w := world_of subscriber0 ∅ in
  (0 <= fst (_getNextExtensionTimeoutMs w))%Q
  ∧ (fst (_getNextExtensionTimeoutMs w) <= extensionBase subscriber0)%Q.
Proof.
  intros w.
  apply (extension_timeout_range w); vm_compute; congruence.
Defined.

(** C7 as stated fails: with a 10 s deadline, a latency of 10000 ms and a
    jitter of 1/2 the interval is -500 ms, outside [0, -1000]. *)
Lemma extension_timeout_negative :
  let w := world_of slow_subscriber ∅ in
  (0 <= random w (draws w))%Q ∧ (random w (draws w) < 1)%Q
  ∧ ¬ ((0 <= fst (_getNextExtensionTimeoutMs w))%Q
       ∧ (fst (_getNextExtensionTimeoutMs w) <= extensionBase slow_subscriber)%Q).
Proof.
  intros w. split_and!.
  - vm_compute; congruence.
  - vm_compute; congruence.
  - intros [H _]. vm_compute in H. by apply H.
Qed.

(** ** Configuration *)

Lemma Object_assign_lookup (target source : JSObject) k :
  Object_assign target source !! k
  = match source !! k with
    | Some v => Some v
    | None => target !! k
    end.
Proof.
  unfold Object_assign. rewrite lookup_union.
  destruct (source !! k), (target !! k); reflexivity.
Qed.

(** C10.  [setOptions] replaces the configuration wholesale: it returns
    normally for every argument, and the resulting options are the defaults
    ([allowExcessMessages] true, the default [maxBytes] and [maxMessages])
    overridden by exactly the properties present in the argument; a property
    absent from the argument reads as its default whatever was configured
    before. *)
Theorem setOptions_replaces_wholesale options w :
  ∃ w', setOptions options w = Normal w'
        ∧ (∀ k, _options (this w') !! k
                = match options !! k with
                  | Some v => Some v
                  | None => defaults !! k
                  end)
        ∧ defaults !! "allowExcessMessages" = Some (JSBool true)
        ∧ defaults !! "maxBytes" = Some (JSNumber maxOutstandingBytes)
        ∧ defaults !! "maxMessages" = Some (JSNumber maxOutstandingMessages)
        ∧ (∀ k, k ∉ ["allowExcessMessages"; "maxBytes"; "maxMessages"] →
                defaults !! k = None).
Proof.
  eexists. split; [reflexivity|]. split_and!; try reflexivity.
  - intros k. apply Object_assign_lookup.
  - intros k Hk. unfold defaults.
    rewrite !not_elem_of_cons in Hk. destruct Hk as (? & ? & ? & _).
    by rewrite !lookup_insert_ne, lookup_singleton_ne by done.
Qed.

(** C8 fails on the code: the constructor and [setOptions] accept the
    conflicting extension settings and the manager then admits a message. *)
Lemma conflicting_options_accepted :
  ∃ w, new_LeaseManager subscriber0 conflicting_options (λ _, 1 # 2)%Q = Normal w
       ∧ prop (_options (this w)) "maxExtension" = JSNumber 3600
       ∧ prop (_options (this w)) "maxExtensionMinutes" = JSNumber 60
       ∧ (∃ w', setOptions conflicting_options w = Normal w'
                ∧ _messages (this (add msgA w')) = [msgA]).
Proof.
  eexists. split; [reflexivity|]. split_and!; try reflexivity.
  eexists. split; reflexivity.
Qed.

(** ** Adding a held message again *)

(** C9.  When [add] is given a message that is already held, the inventory
    and its size are unchanged, the byte counter still grows by the size of
    the message, and the message is handed to [_dispense] or appended to the
    pending queue once more; a counter that matched the inventory now exceeds
    it by the size of the message. *)
Theorem add_held_message_double_counts m w :
  m ∈ _messages (this w) →
  let w' := add m w in
  _messages (this w') = _messages (this w)
  ∧ size (this w') = size (this w)
  ∧ bytes (this w') = bytes (this w) + Z.of_nat (Message.length m)
  ∧ (if ToBoolean (prop (_options (this w)) "allowExcessMessages")
        || negb (isFull (this w))
     then nextTickQueue w'
          = nextTickQueue w ++ dispensed (_subscriber (this w)) m
          ∧ _pending (this w') = _pending (this w)
     else _pending (this w') = _pending (this w) ++ [m]
          ∧ nextTickQueue w' = nextTickQueue w)
  ∧ (bytes (this w) = totalBytes (_messages (this w)) →
     bytes (this w')
     = totalBytes (_messages (this w')) + Z.of_nat (Message.length m)).
Proof.
  intros Hm w'. apply Set_has_true in Hm.
  assert (_messages (this w') = _messages (this w)) as Hs.
  { subst w'. rewrite add_messages. unfold Set_add. by rewrite Hm. }
  subst w'. unfold size. rewrite Hs, add_bytes, add_pending, add_nextTickQueue.
  split_and!; try done.
  - destruct (_ || _); rewrite ?app_nil_r; done.
  - intros ->. done.
Qed.

Lemma add_held_message_double_counts_witness :
  let w := run [Add msgA] (world_of subscriber0 ∅) in
  msgA ∈ _messages (this w)
  ∧ size (this (add msgA w)) = 1
  ∧ bytes (this (add msgA w)) = 20.
Proof.
  intros w.
  assert (msgA ∈ _messages (this w)) as H by (vm_compute; left).
  split; [exact H|].
  destruct (add_held_message_double_counts msgA w H) as (_ & -> & -> & _).
  split; reflexivity.
Defined.

(** ** Notifications: inside the call or deferred *)

(** C4, as amended.  An [add] that flips fullness from false to true delivers
    ['full'] to the listeners inside the call, and queues nothing but the
    dispense of the message; [remove] and [clear] deliver nothing inside the
    call: when [remove] flips fullness from true to false, and when [clear]
    finds the manager full, exactly one deferred ['free'] is queued. *)
Theorem full_is_synchronous_free_is_deferred m w :
  (isFull (this w) = false → isFull (this (add m w)) = true →
   since w (add m w) = [Full]
   ∧ nextTickQueue (add m w)
     = nextTickQueue w ++ dispensed (_subscriber (this w)) m)
  ∧ (since w (remove m w) = []
     ∧ (isFull (this w) = true → isFull (this (remove m w)) = false →
        nextTickQueue (remove m w) = nextTickQueue w ++ [EmitFree]))
  ∧ (since w (snd (clear w)) = []
     ∧ (isFull (this w) = true →
        nextTickQueue (snd (clear w)) = nextTickQueue w ++ [EmitFree])).
Proof.
  split_and!.
  - intros Hw Hw'. split.
    + apply since_app. rewrite add_trace, Hw, Hw'. reflexivity.
    + rewrite add_nextTickQueue, Hw, orb_true_r. reflexivity.
  - apply since_app. by rewrite remove_trace, app_nil_r.
  - intros Hw Hw'.
    destruct (Set_has m (_messages (this w))) eqn:Hm.
    + rewrite remove_nextTickQueue, Hw, Hw' by done. reflexivity.
    + rewrite remove_absent in Hw' by done. congruence.
  - apply since_app. by rewrite clear_trace, app_nil_r.
  - intros Hw. by rewrite clear_nextTickQueue, Hw.
Qed.

Lemma full_is_synchronous_free_is_deferred_witness :
  let w := world_of subscriber0 one_message_cap in
  isFull (this w) = false
  ∧ isFull (this (add msgA w)) = true
  ∧ since w (add msgA w) = [Full]
  ∧ nextTickQueue (add msgA w)
    = nextTickQueue w ++ dispensed (_subscriber (this w)) msgA.
Proof.
  intros w.
  assert (isFull (this w) = false) as H0 by (vm_compute; reflexivity).
  assert (isFull (this (add msgA w)) = true) as H1 by (vm_compute; reflexivity).
  split; [exact H0|]. split; [exact H1|].
  exact (proj1 (full_is_synchronous_free_is_deferred msgA w) H0 H1).
Defined.

(** C4 as stated fails: with a cap of one message, the first [add] flips
    fullness and ['full'] has reached the listeners when [add] returns; no
    callback is left in the queue to deliver it later. *)
Lemma full_delivered_within_add :
  let w := world_of subscriber0 one_message_cap in
  isFull (this w) = false
  ∧ isFull (this (add msgA w)) = true
  ∧ Full ∈ since w (add msgA w)
  ∧ nextTickQueue (add msgA w) = [EmitMessage msgA].
Proof.
  intros w. split_and!; try (vm_compute; reflexivity). vm_compute. left.
Qed.

(** ** A pending entry that outlives its removal *)

(** C2 fails on the code.  B is queued while A fills the byte cap; removing A
    frees the manager and C fills it again; removing B then flips fullness,
    takes the first branch of [remove] and leaves B in the pending queue,
    from where the removal of C dispenses it to the application. *)
Lemma pending_entry_outlives_removal :
  let ops := [Add msgA; Add msgB; Remove msgA; Add msgC] in
  let w := run ops (world_of subscriber0 ten_byte_cap) in
  fresh_adds ops (world_of subscriber0 ten_byte_cap) = true
  ∧ _pending (this w) = [msgB]
  ∧ _messages (this w) = [msgB; msgC]
  ∧ _pending (this (remove msgB w)) = [msgB]
  ∧ _messages (this (remove msgB w)) = [msgC]
  ∧ nextTickQueue (remove msgC (remove msgB w))
    = nextTickQueue (remove msgB w) ++ [EmitMessage msgB].
Proof. split_and!; vm_compute; reflexivity. Qed.

(** ** Alternation of the capacity notifications *)








Lemma Set_add_length m s : (length s ≤ length (Set_add m s))%nat.
Proof.
  unfold Set_add. destruct (Set_has m s); [done|]. rewrite length_app. lia.
Qed.

Lemma add_monotone m w :
  isFull (this w) = true → isFull (this (add m w)) = true.
Proof.
  rewrite add_isFull, isFull_full_at. apply full_at_mono.
  - unfold size. pose proof (Set_add_length m (_messages (this w))). lia.
  - lia.
Qed.

Lemma remove_monotone m w :
  isFull (this (remove m w)) = true → isFull (this w) = true.
Proof.
  rewrite remove_isFull. destruct (Set_has m (_messages (this w))); [|done].
  rewrite isFull_full_at. apply full_at_mono.
  - unfold size. pose proof (Set_delete_length m (_messages (this w))). lia.
  - lia.
Qed.



Lemma clear_isFull w :
  isFull (this (snd (clear w))) = full_at (_options (this w)) 0 0.
Proof.
  rewrite isFull_full_at. unfold size.
  by destruct (clear_this w) as (-> & -> & _ & -> & _).
Qed.











(** ** Instances of the general results *)

Lemma bytes_and_size_track_inventory_witness :
  let w0 := world_of subscriber0 two_message_cap in
  let ops := [Add msgA; Add msgB; Add msgC; Remove msgA; NextTick;
              ExtendDeadlines (λ _, 0); Remove msgA; Clear; Add msgA] in
  fresh_adds ops w0 = true
  ∧ bytes (this (run ops w0)) = totalBytes (_messages (this (run ops w0)))
  ∧ 0 ≤ bytes (this (run ops w0)).
Proof.
  intros w0 ops.
  assert (new_LeaseManager subscriber0 two_message_cap (λ _, 1 # 2)%Q
          = Normal w0) as Hnew by reflexivity.
  assert (fresh_adds ops w0 = true) as Hfresh by (vm_compute; reflexivity).
  split; [exact Hfresh|].
  destruct (bytes_and_size_track_inventory _ _ _ w0 ops Hnew Hfresh)
    as (Hb & Hpos & _).
  split; [exact Hb | exact Hpos].
Defined.

Lemma extendDeadlines_evicts_expired_witness :
  let w := run [Add msgA; Add msgB] (world_of subscriber0 ∅) in
  let now := λ m, if decide (m = msgA) then 3600000 else 60000 in
  msgA ∈ _messages (this w)
  ∧ (maxExtensionMinutes (_subscriber (this w)) <= lifespan (now msgA) msgA)%Q
  ∧ (msgA ∉ _messages (this (_extendDeadlines now w)))
  ∧ (msgA ∉ renewed (since w (_extendDeadlines now w))).
Proof.
  intros w now.
  assert (msgA ∈ _messages (this w)) as Hin by (vm_compute; left).
  assert (maxExtensionMinutes (_subscriber (this w))
          <= lifespan (now msgA) msgA)%Q as Hold
    by (vm_compute; congruence).
  split; [exact Hin|]. split; [exact Hold|].
  exact (proj1 (extendDeadlines_evicts_expired now w) msgA Hin Hold).
Defined.

Lemma setOptions_replaces_wholesale_witness :
  let w := world_of subscriber0 two_message_cap in
  ∃ w', setOptions {[ "maxBytes" := JSNumber 10 ]} w = Normal w'
        ∧ _options (this w') !! "maxBytes" = Some (JSNumber 10)
        ∧ _options (this w') !! "maxMessages"
          = Some (JSNumber maxOutstandingMessages).
Proof.
  intros w.
  destruct (setOptions_replaces_wholesale {[ "maxBytes" := JSNumber 10 ]} w)
    as (w' & Hset & Hlook & _ & _ & Hmax & _).
  exists w'. split; [exact Hset|]. split.
  - rewrite Hlook. reflexivity.
  - rewrite Hlook. exact Hmax.
Defined.

(** ** Further properties of the inventory *)

(** X1.  Removing a message twice is the same as removing it once: after
    [remove] the message is not held, so the second call returns at its
    first test and changes nothing (no second ['free'], no second
    subtraction). *)
Theorem remove_twice m w :
  (m ∉ _messages (this (remove m w)))
  ∧ remove m (remove m w) = remove m w.
Proof.
  assert (m ∉ _messages (this (remove m w))) as H.
  { rewrite remove_messages, elem_of_Set_delete. tauto. }
  split; [exact H|]. apply remove_absent. by apply Set_has_false.
Qed.

Lemma Set_delete_app m s t :
  Set_delete m (s ++ t) = Set_delete m s ++ Set_delete m t.
Proof.
  induction s as [|x s IH]; simpl; [done|].
  destruct (decide (x = m)); simpl; by rewrite IH.
Qed.

Lemma Set_delete_here m s : Set_delete m (m :: s) = Set_delete m s.
Proof. simpl. by destruct (decide (m = m)). Qed.

Lemma add_Set_has m w : Set_has m (_messages (this (add m w))) = true.
Proof.
  rewrite add_messages. apply Set_has_true. unfold Set_add.
  destruct (Set_has m (_messages (this w))) eqn:Hm.
  - by apply Set_has_true.
  - apply elem_of_app. right. by left.
Qed.

(** X2.  Adding a message that is not held and removing it again restores
    the inventory (same messages, same order), the byte counter and the
    fullness. *)
Theorem add_then_remove_restores m w :
  m ∉ _messages (this w) →
  _messages (this (remove m (add m w))) = _messages (this w)
  ∧ bytes (this (remove m (add m w))) = bytes (this w)
  ∧ isFull (this (remove m (add m w))) = isFull (this w).
Proof.
  intros Hm.
  assert (_messages (this (remove m (add m w))) = _messages (this w)) as Hs.
  { rewrite remove_messages, add_messages. unfold Set_add.
    apply Set_has_false in Hm as Hm'. rewrite Hm'.
    rewrite Set_delete_app, Set_delete_here, Set_delete_absent by done.
    simpl. by rewrite app_nil_r. }
  assert (bytes (this (remove m (add m w))) = bytes (this w)) as Hb.
  { rewrite remove_bytes, add_Set_has, add_bytes. lia. }
  split_and!; [done|done|].
  rewrite !isFull_full_at. unfold size.
  by rewrite Hs, Hb, remove_options, add_options.
Qed.

Lemma add_then_remove_restores_witness :
  let w := run [Add msgA; Add msgB] (world_of subscriber0 two_message_cap) in
  (msgC ∉ _messages (this w))
  ∧ _messages (this (remove msgC (add msgC w))) = _messages (this w)
  ∧ bytes (this (remove msgC (add msgC w))) = bytes (this w).
Proof.
  intros w.
  assert (msgC ∉ _messages (this w)) as H.
  { apply Set_has_false. vm_compute. reflexivity. }
  split; [exact H|].
  destruct (add_then_remove_restores msgC w H) as (H1 & H2 & _).
  split; [exact H1 | exact H2].
Defined.

Lemma clear_this_eq w :
  this (snd (clear w))
  = mkLeaseManager 0 false [] (_options (this w)) []
      (_subscriber (this w)) None.
Proof. world_cases w; reflexivity. Qed.

(** X3.  A second [clear] finds nothing: it returns no message and leaves the
    manager as the first one left it; when the empty inventory is not full
    it queues no further ['free'], and in any case it delivers nothing. *)
Theorem clear_twice w :
  fst (clear (snd (clear w))) = []
  ∧ this (snd (clear (snd (clear w)))) = this (snd (clear w))
  ∧ trace (snd (clear (snd (clear w)))) = trace w
  ∧ (full_at (_options (this w)) 0 0 = false →
     nextTickQueue (snd (clear (snd (clear w))))
     = nextTickQueue (snd (clear w))).
Proof.
  split_and!.
  - rewrite clear_returns. apply clear_this.
  - by rewrite (clear_this_eq (snd (clear w))), !clear_this_eq.
  - by rewrite !clear_trace.
  - intros Hempty.
    rewrite (clear_nextTickQueue (snd (clear w))), clear_isFull, Hempty.
    by rewrite app_nil_r.
Qed.

Lemma clear_twice_witness :
  let w := run [Add msgA; Add msgB] (world_of subscriber0 one_message_cap) in
  full_at (_options (this w)) 0 0 = false
  ∧ nextTickQueue (snd (clear (snd (clear w))))
    = nextTickQueue (snd (clear w)).
Proof.
  intros w.
  assert (full_at (_options (this w)) 0 0 = false) as H
    by (vm_compute; reflexivity).
  split; [exact H|].
  destruct (clear_twice w) as (_ & _ & _ & Hq). exact (Hq H).
Defined.

(** Running as many queued callbacks as the [nextTick] queue holds delivers
    all of them in the order they were queued and empties the queue. *)
Lemma queue_drains_in_order w :
  let w' := run (replicate (length (nextTickQueue w)) NextTick) w in
  nextTickQueue w' = []
  ∧ trace w' = trace w ++ map deliver (nextTickQueue w)
  ∧ this w' = this w.
Proof.
  remember (nextTickQueue w) as q eqn:Hq. revert w Hq.
  induction q as [|c q IH]; intros w Hq; simpl.
  - by rewrite app_nil_r.
  - assert (nextTickQueue (runNextTick w) = q
            ∧ trace (runNextTick w) = trace w ++ [deliver c]
            ∧ this (runNextTick w) = this w) as (Hq' & Ht & Hthis).
    { unfold runNextTick. rewrite <- Hq. by destruct c. }
    destruct (IH (runNextTick w) (eq_sym Hq')) as (H1 & H2 & H3).
    split_and!; [done| |congruence].
    rewrite H2, Ht, <- app_assoc. done.
Qed.

(** ** The byte counter under repeated additions *)

Lemma covered_add m w : covered w → covered (add m w).
Proof.
  intros [Hnd Hb]. unfold covered.
  rewrite add_messages, add_bytes. split; [by apply NoDup_Set_add|].
  unfold Set_add. destruct (Set_has m (_messages (this w))).
  - lia.
  - rewrite totalBytes_app. simpl. lia.
Qed.

Lemma covered_remove m w : covered w → covered (remove m w).
Proof.
  intros [Hnd Hb]. unfold covered.
  rewrite remove_messages, remove_bytes. split; [by apply NoDup_Set_delete|].
  destruct (Set_has m (_messages (this w))) eqn:Hm.
  - apply Set_has_true in Hm. rewrite totalBytes_Set_delete by done. lia.
  - apply Set_has_false in Hm. by rewrite Set_delete_absent.
Qed.

Lemma covered_step op w : covered w → covered (step w op).
Proof.
  destruct op; intros Hw; cbn [step].
  - by apply covered_add.
  - by apply covered_remove.
  - unfold covered. rewrite clear_this_eq. simpl. split; [constructor|lia].
  - exact Hw.
  - apply _extendDeadlines_preserves; [| | | |done].
    + intros; by apply covered_remove.
    + intros; done.
    + intros; done.
    + intros; done.
  - unfold covered. by rewrite runNextTick_this.
  - exact Hw.
Qed.

Lemma covered_run ops w : covered w → covered (run ops w).
Proof.
  revert w. induction ops as [|op ops IH]; intros w Hw; simpl; [done|].
  apply IH. by apply covered_step.
Qed.

(** X5.  Along every run from a freshly constructed manager, also one that
    adds a held message again or removes a message that is not held, the
    byte counter is never negative and never below the sum of the sizes of
    the held messages, and the inventory never holds a message twice. *)
Theorem byte_counter_never_undercounts sub options rnd w0 ops :
  new_LeaseManager sub options rnd = Normal w0 →
  let lm := this (run ops w0) in
  totalBytes (_messages lm) ≤ bytes lm
  ∧ 0 ≤ bytes lm
  ∧ NoDup (_messages lm).
Proof.
  intros Hnew lm.
  assert (covered w0) as H0.
  { unfold new_LeaseManager, setOptions in Hnew. injection Hnew as <-.
    split; [constructor | done]. }
  destruct (covered_run ops w0 H0) as [Hnd Hb]. subst lm.
  split_and!; [done| |done].
  pose proof (totalBytes_nonneg (_messages (this (run ops w0)))). lia.
Qed.

Lemma byte_counter_never_undercounts_witness :
  let w0 := world_of subscriber0 two_message_cap in
  let ops := [Add msgA; Add msgA; Remove msgB; Remove msgA; Add msgB;
              Add msgB; Remove msgB] in
  totalBytes (_messages (this (run ops w0))) ≤ bytes (this (run ops w0))
  ∧ 0 ≤ bytes (this (run ops w0)).
Proof.
  intros w0 ops.
  assert (new_LeaseManager subscriber0 two_message_cap (λ _, 1 # 2)%Q
          = Normal w0) as Hnew by reflexivity.
  destruct (byte_counter_never_undercounts _ _ _ w0 ops Hnew) as (H1 & H2 & _).
  split; [exact H1 | exact H2].
Defined.

(** ** The lease and the timer *)

Lemma add_isLeasing m w : _isLeasing (this (add m w)) = true.
Proof. world_cases w; flip_negb; congruence. Qed.

Lemma add_armed m w :
  armed (this (add m w)) = if _isLeasing (this w) then armed (this w) else true.
Proof. unfold armed. world_cases w; flip_negb; subst; simpl in *; congruence. Qed.

Lemma remove_lease m w :
  Set_has m (_messages (this w)) = true →
  _isLeasing (this (remove m w))
  = (if (Z.of_nat (length (Set_delete m (_messages (this w)))) =? 0)
        && _isLeasing (this w)
     then false else _isLeasing (this w))
  ∧ armed (this (remove m w))
    = (if (Z.of_nat (length (Set_delete m (_messages (this w)))) =? 0)
          && _isLeasing (this w)
       then false else armed (this w)).
Proof.
  intros Hm. revert Hm. unfold armed.
  world_cases w; intros; split; first [reflexivity | flip_negb; congruence].
Qed.

Lemma Set_add_nonempty m s : Set_add m s ≠ [].
Proof.
  unfold Set_add. destruct (Set_has m s) eqn:Hm.
  - apply Set_has_true in Hm. intros ->. by apply not_elem_of_nil in Hm.
  - by destruct s.
Qed.

Lemma leased_add m w : leased w → leased (add m w).
Proof.
  intros [Hl Ha]. unfold leased.
  rewrite add_isLeasing, add_armed, add_messages.
  rewrite bool_decide_eq_false_2 by apply Set_add_nonempty.
  split; [done|]. rewrite Ha. by destruct (_isLeasing (this w)).
Qed.

Lemma leased_remove m w : leased w → leased (remove m w).
Proof.
  intros [Hl Ha].
  destruct (Set_has m (_messages (this w))) eqn:Hm;
    [|by rewrite remove_absent].
  destruct (remove_lease m w Hm) as [Hl' Ha']. unfold leased.
  rewrite Hl', Ha', remove_messages.
  assert (_isLeasing (this w) = true) as Hon.
  { rewrite Hl. apply Set_has_true in Hm.
    rewrite bool_decide_eq_false_2; [done|].
    intros Hnil. rewrite Hnil in Hm. by apply not_elem_of_nil in Hm. }
  rewrite Ha, Hon, andb_true_r.
  destruct (Z.of_nat (length (Set_delete m (_messages (this w)))) =? 0)
    eqn:Hz.
  - apply Z.eqb_eq in Hz.
    assert (Set_delete m (_messages (this w)) = []) as ->
      by (apply nil_length_inv; lia).
    done.
  - apply Z.eqb_neq in Hz.
    rewrite bool_decide_eq_false_2; [done|].
    intros Hnil. rewrite Hnil in Hz. simpl in Hz. lia.
Qed.

Lemma _extendDeadlines_preserves_leasing (P : World → Prop) now w :
  (∀ m w, P w → P (remove m w)) →
  (∀ m s w, P w → P (emit (ModAck m s) w)) →
  (∀ m s w, P w → P (emit (ModAckWithResponse m s) w)) →
  (∀ w, P w → _isLeasing (this w) = true → P (_scheduleExtension w)) →
  P w → P (_extendDeadlines now w).
Proof.
  intros Hr He He' Hs Hw. unfold _extendDeadlines.
  assert (P (Set_forEach (λ m, extend_one (now m) m) w)) as H.
  { apply Set_forEach_preserves; [|done].
    intros m w' Hw'. unfold extend_one.
    destruct (negb _); [destruct (isExactlyOnceDelivery _)|]; auto. }
  destruct (_isLeasing _) eqn:Hon; auto.
Qed.

Lemma leased_step op w : leased w → leased (step w op).
Proof.
  destruct op; intros Hw; cbn [step].
  - by apply leased_add.
  - by apply leased_remove.
  - unfold leased, armed. by rewrite clear_this_eq.
  - exact Hw.
  - apply _extendDeadlines_preserves_leasing; [| | | |done].
    + intros; by apply leased_remove.
    + intros; done.
    + intros; done.
    + intros [[] ? ? ? ?] [Hl Ha] Hon. unfold leased, armed in *.
      simpl in *. by rewrite <- Hl, Hon.
  - unfold leased. by rewrite runNextTick_this.
  - exact Hw.
Qed.

Lemma leased_run ops w : leased w → leased (run ops w).
Proof.
  revert w. induction ops as [|op ops IH]; intros w Hw; simpl; [done|].
  apply IH. by apply leased_step.
Qed.

Lemma leased_new sub options rnd w0 :
  new_LeaseManager sub options rnd = Normal w0 → leased w0.
Proof.
  unfold new_LeaseManager, setOptions. intros Hnew. injection Hnew as <-.
  by split.
Qed.

(** X6.  Along every run from a freshly constructed manager, the manager is
    leasing exactly when it holds at least one message, and it stores a
    sweep timer exactly when it is leasing: the first [add] arms the timer,
    the removal of the last message and [clear] disarm it, and a sweep
    re-arms it only while messages are left. *)
Theorem timer_armed_iff_inventory_nonempty sub options rnd w0 ops :
  new_LeaseManager sub options rnd = Normal w0 →
  let lm := this (run ops w0) in
  (_isLeasing lm = true ↔ _messages lm ≠ [])
  ∧ (is_Some (_timer lm) ↔ _messages lm ≠ []).
Proof.
  intros Hnew lm.
  destruct (leased_run ops w0 (leased_new _ _ _ _ Hnew)) as [Hl Ha].
  fold lm in Hl, Ha.
  assert (_isLeasing lm = true ↔ _messages lm ≠ []) as Hiff.
  { rewrite Hl, negb_true_iff. apply bool_decide_eq_false. }
  split; [exact Hiff|]. rewrite <- Hiff, <- Ha. unfold armed.
  destruct (_timer lm); split; intros H; done.
Qed.

Lemma timer_armed_iff_inventory_nonempty_witness :
  let w0 := world_of subscriber0 two_message_cap in
  let ops := [Add msgA; Add msgB; ExtendDeadlines (λ _, 0); Remove msgA;
              Remove msgB] in
  _isLeasing (this (run ops w0)) = true ↔ _messages (this (run ops w0)) ≠ [].
Proof.
  intros w0 ops.
  assert (new_LeaseManager subscriber0 two_message_cap (λ _, 1 # 2)%Q
          = Normal w0) as Hnew by reflexivity.
  exact (proj1 (timer_armed_iff_inventory_nonempty _ _ _ w0 ops Hnew)).
Defined.

(** X7.  A sweep that finds the inventory of a manager empty does nothing at
    all: no renewal call, no change of state and no new timer. *)
Theorem sweep_on_empty_inventory sub options rnd w0 ops now :
  new_LeaseManager sub options rnd = Normal w0 →
  _messages (this (run ops w0)) = [] →
  _extendDeadlines now (run ops w0) = run ops w0.
Proof.
  intros Hnew Hempty.
  destruct (leased_run ops w0 (leased_new _ _ _ _ Hnew)) as [Hl _].
  rewrite Hempty in Hl. simpl in Hl.
  unfold _extendDeadlines, Set_forEach. rewrite Hempty. simpl. by rewrite Hl.
Qed.

Lemma sweep_on_empty_inventory_witness :
  let w0 := world_of subscriber0 two_message_cap in
  let ops := [Add msgA; Add msgB; Remove msgA; Remove msgB] in
  _messages (this (run ops w0)) = []
  ∧ _extendDeadlines (λ _, 0) (run ops w0) = run ops w0.
Proof.
  intros w0 ops.
  assert (new_LeaseManager subscriber0 two_message_cap (λ _, 1 # 2)%Q
          = Normal w0) as Hnew by reflexivity.
  assert (_messages (this (run ops w0)) = []) as H
    by (vm_compute; reflexivity).
  split; [exact H|].
  exact (sweep_on_empty_inventory _ _ _ w0 ops (λ _, 0) Hnew H).
Defined.

(** ** What a sweep leaves and what it renews *)

Lemma extend_one_young now m w :
  young now (_subscriber (this w)) m = true →
  extend_one (now m) m w = emit (renewal (_subscriber (this w)) m) w.
Proof.
  unfold young, lifespan, extend_one, renewal. intros ->.
  by destruct (isExactlyOnceDelivery _).
Qed.

Lemma extend_one_old now m w :
  young now (_subscriber (this w)) m = false →
  extend_one (now m) m w = remove m w.
Proof. unfold young, lifespan, extend_one. by intros ->. Qed.

Lemma Set_delete_middle m s t :
  NoDup (s ++ m :: t) → Set_delete m (s ++ m :: t) = s ++ t.
Proof.
  intros Hnd. apply NoDup_app in Hnd as (_ & Hs & Ht).
  apply NoDup_cons in Ht as [Hm _].
  rewrite Set_delete_app, Set_delete_here, !Set_delete_absent; [done|done|].
  intros Hin. apply (Hs m Hin). by left.
Qed.

Lemma loop_survivors now l :
  ∀ seen w,
    _messages (this w) = seen ++ l →
    NoDup (seen ++ l) →
    let sub := _subscriber (this w) in
    let w' := foldl (visit now) w l in
    _messages (this w') = seen ++ List.filter (young now sub) l
    ∧ trace w' = trace w ++ map (renewal sub) (List.filter (young now sub) l).
Proof.
  induction l as [|y l IH]; intros seen w Hs Hnd; simpl.
  - by rewrite Hs, !app_nil_r.
  - assert (Set_has y (_messages (this w)) = true) as Hy.
    { apply Set_has_true. rewrite Hs. apply elem_of_app. right. by left. }
    unfold visit at 2 4. rewrite Hy.
    destruct (young now (_subscriber (this w)) y) eqn:Hyoung.
    + rewrite extend_one_young by done.
      destruct (IH (seen ++ [y]) (emit (renewal (_subscriber (this w)) y) w))
        as [Hm Ht].
      * simpl. by rewrite Hs, <- app_assoc.
      * by rewrite <- app_assoc.
      * simpl in Hm, Ht. rewrite Hm, Ht, <- !app_assoc. done.
    + rewrite extend_one_old by done.
      destruct (IH seen (remove y w)) as [Hm Ht].
      * rewrite remove_messages, Hs. by apply Set_delete_middle.
      * apply NoDup_app in Hnd as (H1 & H2 & H3).
        apply NoDup_cons in H3 as [H3 H4].
        apply NoDup_app. split_and!; [done| |done].
        intros x Hx Hx'. apply (H2 x Hx). by right.
      * rewrite remove_subscriber, remove_trace in *. done.
Qed.

(** X8.  A sweep over an inventory without repetition leaves exactly the held
    messages whose age is below [maxExtensionMinutes], in their order of
    arrival, and its renewal calls are exactly one per such message, in the
    same order, each for the subscriber's [ackDeadline]: a response-checked
    call under exactly-once delivery, a plain [modAck] otherwise. *)
Theorem sweep_keeps_and_renews_the_young now w :
  NoDup (_messages (this w)) →
  let sub := _subscriber (this w) in
  let w' := _extendDeadlines now w in
  _messages (this w') = List.filter (young now sub) (_messages (this w))
  ∧ since w w'
    = map (renewal sub) (List.filter (young now sub) (_messages (this w))).
Proof.
  intros Hnd sub w'.
  destruct (_extendDeadlines_loop now w) as [Hm Ht].
  destruct (loop_survivors now (_messages (this w)) [] w eq_refl Hnd)
    as [Hm' Ht'].
  split.
  - subst w'. rewrite Hm. exact Hm'.
  - apply since_app. subst w'. rewrite Ht. exact Ht'.
Qed.

Lemma sweep_keeps_and_renews_the_young_witness :
  let w := run [Add msgA; Add msgB; Add msgC] (world_of subscriber0 ∅) in
  let now := λ m, if decide (m = msgB) then 3600000 else 60000 in
  NoDup (_messages (this w))
  ∧ _messages (this (_extendDeadlines now w)) = [msgA; msgC]
  ∧ since w (_extendDeadlines now w) = [ModAck msgA 10; ModAck msgC 10].
Proof.
  intros w now.
  assert (NoDup (_messages (this w))) as Hnd.
  { apply (bool_decide_eq_true_1 (NoDup (_messages (this w)))).
    vm_compute. reflexivity. }
  split; [exact Hnd|].
  destruct (sweep_keeps_and_renews_the_young now w Hnd) as [-> ->].
  split; vm_compute; reflexivity.
Defined.

(** ** The pending queue *)

Lemma remove_pending_sublist m w :
  _pending (this (remove m w)) `sublist_of` _pending (this w).
Proof.
  destruct (Set_has m (_messages (this w))) eqn:Hm;
    [|by rewrite remove_absent].
  rewrite remove_pending by done.
  destruct (_ && _); [done|]. destruct (includes _ _).
  - unfold splice1. rewrite <- delete_take_drop. apply sublist_delete.
  - destruct (_pending (this w)); [done|]. simpl. by apply sublist_cons.
Qed.

(** X9.  No step reorders the pending queue: after any operation the queue
    is the old queue, possibly followed by the message an [add] brought,
    with some entries taken out.  Messages held back keep their order of
    arrival. *)
Theorem pending_order_is_kept op w :
  _pending (this (step w op)) `sublist_of` _pending (this w) ++ arriving op.
Proof.
  destruct op; cbn [step arriving]; rewrite ?app_nil_r.
  - rewrite add_pending. destruct (_ || _); [by apply sublist_inserts_r|done].
  - apply remove_pending_sublist.
  - rewrite clear_this_eq. apply sublist_nil_l.
  - done.
  - apply (_extendDeadlines_preserves
             (λ w', _pending (this w') `sublist_of` _pending (this w)));
      [| | | |done].
    + intros m w' Hw'. etrans; [apply remove_pending_sublist | done].
    + intros; done.
    + intros; done.
    + intros [[] ? ? ? ?] Hw'. exact Hw'.
  - by rewrite runNextTick_this.
  - done.
Qed.

Lemma excess_allowed_remove m w : excess_allowed w → excess_allowed (remove m w).
Proof.
  intros [Ho Hp]. split; [by rewrite remove_options|].
  pose proof (remove_pending_sublist m w) as H. rewrite Hp in H.
  by apply sublist_nil_r in H.
Qed.

Lemma excess_allowed_step op w :
  match op with SetOptions _ => False | _ => True end →
  excess_allowed w → excess_allowed (step w op).
Proof.
  destruct op; intros Hop Hw; cbn [step]; try done.
  - destruct Hw as [Ho Hp]. split; [by rewrite add_options|].
    by rewrite add_pending, Ho.
  - by apply excess_allowed_remove.
  - destruct Hw as [Ho Hp]. unfold excess_allowed.
    by rewrite clear_this_eq.
  - apply _extendDeadlines_preserves; [| | | |done].
    + intros; by apply excess_allowed_remove.
    + intros; done.
    + intros; done.
    + intros [[] ? ? ? ?] H. exact H.
  - unfold excess_allowed. by rewrite runNextTick_this.
Qed.

Lemma excess_allowed_run ops w :
  no_reconfiguration ops = true → excess_allowed w →
  excess_allowed (run ops w).
Proof.
  revert w. induction ops as [|op ops IH]; intros w Hops Hw; simpl in *;
    [done|].
  apply andb_true_iff in Hops as [Hop Hops].
  apply IH; [done|]. apply excess_allowed_step; [|done]. by destruct op.
Qed.

(** X10.  While [allowExcessMessages] is truthy (the default) nothing is ever
    held back: along every run from the constructor that does not replace the
    options, the pending queue stays empty, whatever the fullness. *)
Theorem nothing_pending_when_excess_allowed sub options rnd w0 ops :
  new_LeaseManager sub options rnd = Normal w0 →
  ToBoolean (prop (_options (this w0)) "allowExcessMessages") = true →
  no_reconfiguration ops = true →
  _pending (this (run ops w0)) = [] ∧ pending (this (run ops w0)) = 0.
Proof.
  intros Hnew Hallow Hops.
  assert (excess_allowed w0) as H0.
  { split; [done|].
    unfold new_LeaseManager, setOptions in Hnew. by injection Hnew as <-. }
  destruct (excess_allowed_run ops w0 Hops H0) as [_ Hp].
  unfold pending. by rewrite Hp.
Qed.

Lemma nothing_pending_when_excess_allowed_witness :
  let w0 := world_of subscriber0 {[ "maxMessages" := JSNumber 1 ]} in
  let ops := [Add msgA; Add msgB; Add msgC; Remove msgA; Remove msgC] in
  ToBoolean (prop (_options (this w0)) "allowExcessMessages") = true
  ∧ _pending (this (run ops w0)) = [].
Proof.
  intros w0 ops.
  assert (new_LeaseManager subscriber0 {[ "maxMessages" := JSNumber 1 ]}
            (λ _, 1 # 2)%Q = Normal w0) as Hnew by reflexivity.
  assert (ToBoolean (prop (_options (this w0)) "allowExcessMessages") = true)
    as Hallow by (vm_compute; reflexivity).
  assert (no_reconfiguration ops = true) as Hops by reflexivity.
  split; [exact Hallow|].
  exact (proj1 (nothing_pending_when_excess_allowed _ _ _ w0 ops
                  Hnew Hallow Hops)).
Defined.

(** ** A closed subscriber *)

Lemma silent_remove m w : silent w → silent (remove m w).
Proof.
  intros (Hc & Hq & Ht).
  destruct (Set_has m (_messages (this w))) eqn:Hm;
    [|by rewrite remove_absent].
  unfold silent.
  rewrite remove_subscriber, remove_trace, remove_nextTickQueue by done.
  split_and!; [done| |done].
  apply Forall_app. split; [done|].
  unfold dispensed. rewrite Hc.
  destruct (_ && _); [by repeat constructor|].
  destruct (includes _ _); [done|]. by destruct (_pending (this w)).
Qed.

Lemma silent_emit e w : is_delivery e = false → silent w → silent (emit e w).
Proof.
  intros He (Hc & Hq & Ht). split_and!; [done|done|].
  simpl. apply Forall_app. split; [done|]. by repeat constructor.
Qed.

Lemma silent_step op w :
  match op with
  | SubscriberChange sub => isOpen sub = false
  | _ => True
  end →
  silent w → silent (step w op).
Proof.
  destruct op; intros Hop Hw; cbn [step].
  - destruct Hw as (Hc & Hq & Ht). unfold silent.
    rewrite add_subscriber, add_trace, add_nextTickQueue.
    split_and!; [done| |].
    + apply Forall_app. split; [done|]. unfold dispensed. rewrite Hc.
      by destruct (_ || _).
    + apply Forall_app. split; [done|].
      destruct (_ && _); by repeat constructor.
  - by apply silent_remove.
  - destruct Hw as (Hc & Hq & Ht). unfold silent.
    rewrite clear_trace, clear_nextTickQueue, clear_this_eq.
    split_and!; [done| |done].
    apply Forall_app. split; [done|].
    destruct (isFull _); by repeat constructor.
  - exact Hw.
  - apply _extendDeadlines_preserves; [| | | |done].
    + intros; by apply silent_remove.
    + intros; by apply silent_emit.
    + intros; by apply silent_emit.
    + intros [[] ? ? ? ?] H. exact H.
  - destruct Hw as (Hc & Hq & Ht). unfold silent, runNextTick.
    destruct (nextTickQueue w) as [|c q] eqn:Hnq;
      [split_and!; rewrite ?Hnq; done|].
    apply Forall_cons in Hq as [Hcq Hq].
    destruct c; [|done]. simpl. split_and!; [done|done|].
    apply Forall_app. split; [done|]. by repeat constructor.
  - destruct Hw as (Hc & Hq & Ht). destruct w as [[] ? ? ? ?].
    split_and!; done.
Qed.

Lemma silent_run ops w :
  stays_closed ops = true → silent w → silent (run ops w).
Proof.
  revert w. induction ops as [|op ops IH]; intros w Hops Hw; simpl in *;
    [done|].
  apply andb_true_iff in Hops as [Hop Hops].
  apply IH; [done|]. apply silent_step; [|done].
  destruct op; try done. by apply negb_true_iff.
Qed.

(** X11.  While the subscriber is not open, [_dispense] drops every message:
    along every run from a manager constructed on a closed subscriber that
    never opens it, no dispense is ever queued and the application never
    receives a message, although messages are held, removed and swept as
    usual. *)
Theorem closed_subscriber_receives_nothing sub options rnd w0 ops :
  new_LeaseManager sub options rnd = Normal w0 →
  isOpen sub = false →
  stays_closed ops = true →
  Forall (λ c, is_dispense c = false) (nextTickQueue (run ops w0))
  ∧ Forall (λ e, is_delivery e = false) (trace (run ops w0)).
Proof.
  intros Hnew Hc Hops.
  assert (silent w0) as H0.
  { unfold new_LeaseManager, setOptions in Hnew. injection Hnew as <-.
    split_and!; [done|constructor|constructor]. }
  by destruct (silent_run ops w0 Hops H0) as (_ & Hq & Ht).
Qed.

Lemma closed_subscriber_receives_nothing_witness :
  let w0 := world_of closed_subscriber two_message_cap in
  let ops := [Add msgA; Add msgB; Add msgC; Remove msgA; NextTick; Clear;
              NextTick] in
  Forall (λ e, is_delivery e = false) (trace (run ops w0)).
Proof.
  intros w0 ops.
  assert (new_LeaseManager closed_subscriber two_message_cap (λ _, 1 # 2)%Q
          = Normal w0) as Hnew by reflexivity.
  exact (proj2 (closed_subscriber_receives_nothing _ _ _ w0 ops Hnew
                  eq_refl eq_refl)).
Defined.

(** ** Fullness *)

(** X12.  Back-pressure moves one way per operation: [add] never turns a
    full manager into one that is not full, and [remove] and a sweep never
    turn a manager that is not full into a full one. *)
Theorem fullness_is_monotone m now w :
  (isFull (this w) = true → isFull (this (add m w)) = true)
  ∧ (isFull (this w) = false → isFull (this (remove m w)) = false)
  ∧ (isFull (this w) = false →
     isFull (this (_extendDeadlines now w)) = false).
Proof.
  split_and!.
  - apply add_monotone.
  - intros Hw. destruct (isFull (this (remove m w))) eqn:Hr; [|done].
    apply remove_monotone in Hr. congruence.
  - intros Hw.
    apply (_extendDeadlines_preserves (λ w', isFull (this w') = false));
      [| | | |done].
    + intros m' w' Hw'. destruct (isFull (this (remove m' w'))) eqn:Hr; [|done].
      apply remove_monotone in Hr. congruence.
    + intros; done.
    + intros; done.
    + intros [[] ? ? ? ?] H. exact H.
Qed.

Lemma fullness_is_monotone_witness :
  let w := run [Add msgA; Add msgB] (world_of subscriber0 two_message_cap) in
  isFull (this w) = true ∧ isFull (this (add msgC w)) = true.
Proof.
  intros w.
  assert (isFull (this w) = true) as H by (vm_compute; reflexivity).
  split; [exact H|].
  exact (proj1 (fullness_is_monotone msgC (λ _, 0) w) H).
Defined.

Lemma options_step op w :
  match op with SetOptions _ => False | _ => True end →
  _options (this (step w op)) = _options (this w).
Proof.
  destruct op; intros Hop; cbn [step].
  - apply add_options.
  - apply remove_options.
  - by rewrite clear_this_eq.
  - done.
  - apply (_extendDeadlines_preserves
             (λ w', _options (this w') = _options (this w))); [| | | |done].
    + intros m w' Hw'. by rewrite remove_options.
    + intros; done.
    + intros; done.
    + intros [[] ? ? ? ?] H. exact H.
  - by rewrite runNextTick_this.
  - by destruct w as [[] ? ? ? ?].
Qed.

Lemma options_run ops w :
  no_reconfiguration ops = true →
  _options (this (run ops w)) = _options (this w).
Proof.
  revert w. induction ops as [|op ops IH]; intros w Hops; simpl in *; [done|].
  apply andb_true_iff in Hops as [Hop Hops].
  rewrite IH by done. apply options_step. by destruct op.
Qed.

(** X13.  An option given as [undefined] is not replaced by its default:
    after [setOptions] with [maxMessages] and [maxBytes] both present and
    [undefined], the manager is never full, however many messages and bytes
    it holds, until the options are replaced again. *)
Theorem undefined_caps_disable_flow_control options w w' ops :
  setOptions options w = Normal w' →
  options !! "maxMessages" = Some JSUndefined →
  options !! "maxBytes" = Some JSUndefined →
  no_reconfiguration ops = true →
  isFull (this (run ops w')) = false.
Proof.
  intros Hset Hm Hb Hops.
  unfold setOptions in Hset. injection Hset as <-.
  rewrite isFull_full_at, options_run by done. unfold full_at, prop.
  cbn [this set_options with_this _options].
  by rewrite !Object_assign_lookup, Hm, Hb.
Qed.

Lemma undefined_caps_disable_flow_control_witness :
  let w := world_of subscriber0 one_message_cap in
  let ops := [Add msgA; Add msgB; Add msgC] in
  isFull (this (run ops (set_options (Object_assign defaults undefined_caps) w)))
  = false.
Proof.
  intros w ops.
  exact (undefined_caps_disable_flow_control undefined_caps w _ ops
           eq_refl eq_refl eq_refl eq_refl).
Defined.

(** ** Admission *)

(** X14.  [add] has no rejection path: whatever the fullness, the message is
    held afterwards, and with an open subscriber it is either queued for
    delivery to the application or waiting in the pending queue. *)
Theorem add_always_admits m w :
  m ∈ _messages (this (add m w))
  ∧ (isOpen (_subscriber (this w)) = true →
     EmitMessage m ∈ nextTickQueue (add m w)
     ∨ m ∈ _pending (this (add m w))).
Proof.
  split; [apply Set_has_true, add_Set_has|].
  intros Hopen. rewrite add_nextTickQueue, add_pending.
  unfold dispensed. rewrite Hopen.
  destruct (_ || _); [left|right]; apply elem_of_app; right; by left.
Qed.

Lemma add_always_admits_witness :
  let w := run [Add msgA] (world_of subscriber0 one_message_cap) in
  isOpen (_subscriber (this w)) = true
  ∧ (EmitMessage msgB ∈ nextTickQueue (add msgB w)
     ∨ msgB ∈ _pending (this (add msgB w))).
Proof.
  intros w.
  assert (isOpen (_subscriber (this w)) = true) as H by reflexivity.
  split; [exact H|].
  exact (proj2 (add_always_admits msgB w) H).
Defined.

(** ** Flow control under a count cap *)

Lemma Set_delete_length_held m s :
  NoDup s → m ∈ s → S (length (Set_delete m s)) = length s.
Proof.
  induction 1 as [|y s Hy Hs IH]; simpl; [by intros ?%not_elem_of_nil|].
  destruct (decide (y = m)) as [->|Hne]; intros Hin.
  - by rewrite Set_delete_absent.
  - apply elem_of_cons in Hin as [->|Hin]; [done|]. simpl. by rewrite IH.
Qed.

Lemma splice1_indexOf m p :
  NoDup p → m ∈ p → splice1 (indexOf m p) p = Set_delete m p.
Proof.
  unfold splice1.
  induction 1 as [|y p Hy Hp IH]; simpl; [by intros ?%not_elem_of_nil|].
  destruct (decide (y = m)) as [->|Hne]; intros Hin; simpl.
  - by rewrite Set_delete_absent.
  - apply elem_of_cons in Hin as [->|Hin]; [done|]. by rewrite IH.
Qed.

Lemma count_capped_isFull N lm :
  count_capped N (_options lm) → isFull lm = (N <=? size lm).
Proof.
  intros (_ & Hm & Hb). rewrite isFull_full_at. unfold full_at.
  rewrite Hm, Hb. simpl. apply orb_false_r.
Qed.

Lemma metered_lists_push N held pend m :
  metered_lists N held pend → m ∉ held → N ≤ Z.of_nat (length held) →
  metered_lists N (held ++ [m]) (pend ++ [m]).
Proof.
  intros (Hnd & Hnp & Hsub & Hle & Heq) Hm Hfull. split_and!.
  - apply NoDup_app. split_and!; [done| |apply NoDup_singleton].
    intros x Hx ->%list_elem_of_singleton. done.
  - apply NoDup_app. split_and!; [done| |apply NoDup_singleton].
    intros x Hx ->%list_elem_of_singleton. by apply Hm, Hsub.
  - intros x [Hx| ->%list_elem_of_singleton]%elem_of_app;
      apply elem_of_app; [left; by apply Hsub | right; by left].
  - rewrite !length_app. simpl. lia.
  - intros _. rewrite !length_app. simpl.
    destruct pend as [|y p]; [simpl in *; lia|].
    specialize (Heq ltac:(done)). lia.
Qed.

Lemma metered_lists_idle N held pend :
  metered_lists N held pend → Z.of_nat (length held) < N → pend = [].
Proof.
  intros (_ & _ & _ & _ & Heq) Hlt.
  destruct pend as [|y p]; [done|].
  specialize (Heq ltac:(done)). simpl in *. lia.
Qed.

Lemma metered_lists_admit N held pend m :
  metered_lists N held pend → m ∉ held → Z.of_nat (length held) < N →
  metered_lists N (held ++ [m]) pend.
Proof.
  intros H Hm Hlt. pose proof (metered_lists_idle _ _ _ H Hlt) as ->.
  destruct H as (Hnd & _). split_and!.
  - apply NoDup_app. split_and!; [done| |apply NoDup_singleton].
    intros x Hx ->%list_elem_of_singleton. done.
  - constructor.
  - intros x Hx. by apply not_elem_of_nil in Hx.
  - rewrite length_app. simpl. lia.
  - done.
Qed.

Lemma metered_lists_drop N held pend m :
  metered_lists N held pend → m ∈ pend →
  metered_lists N (Set_delete m held) (Set_delete m pend).
Proof.
  intros (Hnd & Hnp & Hsub & Hle & Heq) Hm.
  pose proof (Set_delete_length_held m _ Hnd (Hsub _ Hm)).
  pose proof (Set_delete_length_held m _ Hnp Hm).
  split_and!; try by apply NoDup_Set_delete.
  - intros x [Hx Hne]%elem_of_Set_delete.
    apply elem_of_Set_delete. split; [by apply Hsub|done].
  - lia.
  - intros _. assert (pend ≠ []) as Hne.
    { intros ->. by apply not_elem_of_nil in Hm. }
    specialize (Heq Hne). lia.
Qed.

Lemma metered_lists_pop N held pend m :
  metered_lists N held pend → m ∈ held → m ∉ pend →
  metered_lists N (Set_delete m held) (tail pend).
Proof.
  intros (Hnd & Hnp & Hsub & Hle & Heq) Hm Hp.
  pose proof (Set_delete_length_held m _ Hnd Hm).
  destruct pend as [|y p]; simpl tail.
  - split_and!; [by apply NoDup_Set_delete|constructor| | |done].
    + intros x Hx. by apply not_elem_of_nil in Hx.
    + simpl in *. lia.
  - specialize (Heq ltac:(done)). apply NoDup_cons in Hnp as [_ Hnp].
    split_and!; [by apply NoDup_Set_delete|done| | |].
    + intros x Hx. apply elem_of_Set_delete. split.
      * apply Hsub. by right.
      * intros ->. apply Hp. by right.
    + simpl in *. lia.
    + intros _. simpl in *. lia.
Qed.

Lemma metered_lists_flip N held pend m :
  metered_lists N held pend → m ∈ held →
  Z.of_nat (length (Set_delete m held)) < N →
  N ≤ Z.of_nat (length held) →
  metered_lists N (Set_delete m held) pend.
Proof.
  intros H Hm Hnow Hwas. pose proof H as (Hnd & Hnp & Hsub & Hle & Heq).
  pose proof (Set_delete_length_held m _ Hnd Hm).
  assert (pend = []) as ->.
  { destruct pend as [|y p]; [done|].
    specialize (Heq ltac:(done)). simpl in *. lia. }
  split_and!; [by apply NoDup_Set_delete|constructor| | |done].
  - intros x Hx. by apply not_elem_of_nil in Hx.
  - simpl. lia.
Qed.

Lemma metered_add N m w :
  count_capped N (_options (this w)) →
  m ∉ _messages (this w) →
  metered N w → metered N (add m w).
Proof.
  intros Hcap Hm Hw. pose proof Hcap as (Hallow & _).
  unfold metered in *.
  rewrite add_messages, add_pending, Hallow, (count_capped_isFull N) by done.
  unfold size, Set_add. apply Set_has_false in Hm as Hm'. rewrite Hm'.
  simpl orb.
  destruct (N <=? Z.of_nat (length (_messages (this w)))) eqn:Hfull; simpl negb;
    cbv iota.
  - apply Z.leb_le in Hfull. by apply metered_lists_push.
  - apply Z.leb_gt in Hfull. by apply metered_lists_admit.
Qed.

Lemma metered_remove N m w :
  count_capped N (_options (this w)) →
  metered N w → metered N (remove m w).
Proof.
  intros Hcap Hw.
  destruct (Set_has m (_messages (this w))) eqn:Hm;
    [|by rewrite remove_absent].
  apply Set_has_true in Hm as Hin.
  pose proof Hw as (Hnd & Hnp & _).
  pose proof (Set_delete_length_held m _ Hnd Hin) as Hlen.
  unfold metered in *.
  rewrite remove_messages, remove_pending by done.
  rewrite remove_isFull, Hm, (count_capped_isFull N) by done.
  unfold full_at. destruct Hcap as (_ & -> & ->). unfold size, js_ge.
  simpl ToNumber. cbv iota. rewrite orb_false_r.
  destruct (N <=? Z.of_nat (length (_messages (this w)))) eqn:Hwas;
    destruct (N <=? Z.of_nat (length (Set_delete m (_messages (this w)))))
      eqn:Hnow; simpl andb; cbv iota.
  2:{ apply Z.leb_le in Hwas. apply Z.leb_gt in Hnow.
      by apply metered_lists_flip. }
  2:{ apply Z.leb_gt in Hwas. apply Z.leb_le in Hnow. lia. }
  all: destruct (includes m (_pending (this w))) eqn:Hinc.
  all: first
    [ apply bool_decide_eq_true in Hinc;
      rewrite splice1_indexOf by done; by apply metered_lists_drop
    | apply bool_decide_eq_false in Hinc; by apply metered_lists_pop ].
Qed.

Lemma metered_lists_nonneg N held pend : metered_lists N held pend → 0 ≤ N.
Proof.
  intros (_ & Hnp & Hsub & Hle & _).
  assert (length pend ≤ length held)%nat; [|lia].
  apply submseteq_length, NoDup_submseteq; [done|].
  intros x Hx. by apply Hsub.
Qed.

Lemma metered_step N op w :
  match op with
  | Add m => Set_has m (_messages (this w)) = false
  | SetOptions _ => False
  | _ => True
  end →
  count_capped N (_options (this w)) →
  metered N w →
  count_capped N (_options (this (step w op))) ∧ metered N (step w op).
Proof.
  intros Hop Hcap Hw. split.
  - rewrite options_step; [done|]. by destruct op.
  - destruct op; cbn [step].
    + apply metered_add; [done| |done]. by apply Set_has_false.
    + by apply metered_remove.
    + unfold metered. rewrite clear_this_eq. simpl.
      pose proof (metered_lists_nonneg _ _ _ Hw).
      split_and!; [constructor|constructor| | |done].
      * intros x Hx. by apply not_elem_of_nil in Hx.
      * simpl. lia.
    + done.
    + enough (count_capped N (_options (this (_extendDeadlines now w)))
              ∧ metered N (_extendDeadlines now w)) as [_ ?] by done.
      apply _extendDeadlines_preserves; [| | | |done].
      * intros m w' [Hc Hm]. split; [by rewrite remove_options|].
        by apply metered_remove.
      * intros; done.
      * intros; done.
      * intros [[] ? ? ? ?] H. exact H.
    + unfold metered. by rewrite runNextTick_this.
    + by destruct w as [[] ? ? ? ?].
Qed.

Lemma metered_run N ops w :
  fresh_adds ops w = true → no_reconfiguration ops = true →
  count_capped N (_options (this w)) → metered N w →
  metered N (run ops w).
Proof.
  revert w. induction ops as [|op ops IH]; intros w Hf Hn Hcap Hw;
    simpl in *; [done|].
  apply andb_true_iff in Hf as [Hop Hf].
  apply andb_true_iff in Hn as [Hop' Hn].
  destruct (metered_step N op w) as [Hcap' Hw']; [|done|done|].
  - destruct op; try done. by apply negb_true_iff.
  - by apply IH.
Qed.

(** X15.  What holding back excess messages guarantees.  With
    [allowExcessMessages] false and a count cap of [N] messages as the only
    cap, along every run from the constructor that adds only messages not
    already held and does not replace the options: never more than [N] held
    messages are outside the pending queue (handed to [_dispense] and not
    yet removed), exactly [N] while a message is pending, every pending
    message is held, and the pending queue has no repetition. *)
Theorem count_cap_bounds_outstanding sub options rnd w0 N ops :
  new_LeaseManager sub options rnd = Normal w0 →
  count_capped N (_options (this w0)) →
  0 ≤ N →
  fresh_adds ops w0 = true →
  no_reconfiguration ops = true →
  let lm := this (run ops w0) in
  size lm - pending lm ≤ N
  ∧ (_pending lm ≠ [] → size lm - pending lm = N)
  ∧ (∀ x, x ∈ _pending lm → x ∈ _messages lm)
  ∧ NoDup (_pending lm).
Proof.
  intros Hnew Hcap HN Hfresh Hops lm.
  assert (metered N w0) as H0.
  { unfold new_LeaseManager, setOptions in Hnew. injection Hnew as <-.
    split_and!; [constructor|constructor| | |done].
    - intros x Hx. by apply not_elem_of_nil in Hx.
    - simpl. lia. }
  destruct (metered_run N ops w0 Hfresh Hops Hcap H0)
    as (_ & Hnp & Hsub & Hle & Heq).
  by split_and!.
Qed.

Lemma count_cap_bounds_outstanding_witness :
  let w0 := world_of subscriber0 count_cap_two in
  let ops := [Add msgA; Add msgB; Add msgC; Remove msgA; NextTick;
              Remove msgC] in
  count_capped 2 (_options (this w0))
  ∧ fresh_adds ops w0 = true
  ∧ size (this (run ops w0)) - pending (this (run ops w0)) ≤ 2.
Proof.
  intros w0 ops.
  assert (new_LeaseManager subscriber0 count_cap_two (λ _, 1 # 2)%Q
          = Normal w0) as Hnew by reflexivity.
  assert (count_capped 2 (_options (this w0))) as Hcap.
  { split_and!; vm_compute; reflexivity. }
  assert (0 ≤ 2) as HN by lia.
  assert (fresh_adds ops w0 = true) as Hfresh by (vm_compute; reflexivity).
  assert (no_reconfiguration ops = true) as Hops by reflexivity.
  split; [exact Hcap|]. split; [exact Hfresh|].
  exact (proj1 (count_cap_bounds_outstanding _ _ _ w0 2 ops
                  Hnew Hcap HN Hfresh Hops)).
Defined.

(** ** Order of delivery *)

Lemma adds_dispense_in_order ms :
  ∀ w,
    ToBoolean (prop (_options (this w)) "allowExcessMessages") = true →
    isOpen (_subscriber (this w)) = true →
    nextTickQueue (run (map Add ms) w)
    = nextTickQueue w ++ map EmitMessage ms
    ∧ deliveries (trace (run (map Add ms) w)) = deliveries (trace w).
Proof.
  induction ms as [|m ms IH]; intros w Hallow Hopen; simpl.
  - by rewrite app_nil_r.
  - destruct (IH (add m w)) as [Hq Ht].
    + by rewrite add_options.
    + by rewrite add_subscriber.
    + rewrite Hq, Ht, add_nextTickQueue, add_trace, Hallow.
      unfold dispensed, deliveries. rewrite Hopen, omap_app. simpl.
      split; [by rewrite <- app_assoc|].
      destruct (_ && _); simpl; by rewrite app_nil_r.
Qed.

Lemma deliveries_deliver ms :
  deliveries (map deliver (map EmitMessage ms)) = ms.
Proof. induction ms as [|m ms IH]; simpl; [done|]. unfold deliveries in *. simpl. by rewrite IH. Qed.

(** X4.  With [allowExcessMessages] truthy and an open subscriber, a batch of
    messages added in one tick is delivered to the application, when the
    queued callbacks run, in the order the messages were added, each once;
    a ['full'] emitted in between does not disturb the order. *)
Theorem batch_is_delivered_in_arrival_order ms w :
  ToBoolean (prop (_options (this w)) "allowExcessMessages") = true →
  isOpen (_subscriber (this w)) = true →
  nextTickQueue w = [] →
  let w1 := run (map Add ms) w in
  let w2 := run (replicate (length (nextTickQueue w1)) NextTick) w1 in
  nextTickQueue w1 = map EmitMessage ms
  ∧ deliveries (trace w2) = deliveries (trace w) ++ ms
  ∧ nextTickQueue w2 = [].
Proof.
  intros Hallow Hopen Hq w1 w2.
  destruct (adds_dispense_in_order ms w Hallow Hopen) as [Hq1 Ht1].
  rewrite Hq in Hq1. simpl in Hq1. fold w1 in Hq1, Ht1.
  destruct (queue_drains_in_order w1) as (Hq2 & Ht2 & _). fold w2 in Hq2, Ht2.
  split_and!; [done| |done].
  rewrite Ht2. unfold deliveries at 1. rewrite omap_app.
  fold (deliveries (trace w1)).
  fold (deliveries (map deliver (nextTickQueue w1))).
  by rewrite Ht1, Hq1, deliveries_deliver.
Qed.

Lemma batch_is_delivered_in_arrival_order_witness :
  let w := world_of subscriber0 {[ "maxMessages" := JSNumber 2 ]} in
  let w1 := run (map Add [msgA; msgB; msgC]) w in
  let w2 := run (replicate (length (nextTickQueue w1)) NextTick) w1 in
  deliveries (trace w2) = deliveries (trace w) ++ [msgA; msgB; msgC].
Proof.
  intros w w1 w2.
  assert (ToBoolean (prop (_options (this w)) "allowExcessMessages") = true)
    as Hallow by (vm_compute; reflexivity).
  assert (isOpen (_subscriber (this w)) = true) as Hopen by reflexivity.
  assert (nextTickQueue w = []) as Hq by reflexivity.
  exact (proj1 (proj2 (batch_is_delivered_in_arrival_order
                         [msgA; msgB; msgC] w Hallow Hopen Hq))).
Defined.

(** ** Redistribution of freed capacity *)





